(** * id3v2: the two-phase tag parser of parse.go

    A shallow embedding of [parseTag], [newTag], [findAllFrames],
    [parseFrameHeader], [parseAllFramesCoords], [parseFramesCoordsWithID],
    [findParseFunc] and [readFrame], and the properties of the structural
    scan and of the lazy decoding of frames.

    Conventions of the embedding:
    - a Go [int64] is a [Z]; the additions on the scan cursor are wrapped
      with [wrap64];
    - a byte slice is a [list byte], a Go [string] a [string];
    - the [*os.File] is a record holding the bytes, the shared read offset
      and the trace of the seeks and reads performed on it;
    - a Go [error] is its message;
    - a [panic] is returned as an error next to the state reached. *)

From Stdlib Require Import ZArith Lia List Sorted.
From Stdlib.Strings Require Import Byte Ascii String.
From stdpp Require Import base option list gmap strings.

Local Open Scope Z_scope.

(** ** Integers and errors *)

Definition error := string.

Inductive result (A : Type) : Type :=
| Ok (a : A)
| Err (e : error).
Arguments Ok {A} a.
Arguments Err {A} e.

Definition max_int64 : Z := 2 ^ 63 - 1.
Definition min_int64 : Z := - 2 ^ 63.

(** Two's complement wrap-around of an [int64] addition. *)
Definition wrap64 (z : Z) : Z := (z + 2 ^ 63) mod 2 ^ 64 - 2 ^ 63.

#[global] Instance byte_eq_decision : EqDecision byte := Byte.byte_eq_dec.

Definition byteZ (b : byte) : Z := Z.of_N (Byte.to_N b).

(** ** The byte source

    [offset] is the position shared by every reader of the handle;
    [events] records, oldest first, each seek and each read that reached
    the file, a read with the offset it started at and the number of bytes
    it delivered. *)

Inductive IOEvent : Type :=
| EvSeek (pos : Z)
| EvRead (pos : Z) (n : nat).

Record File : Type := mkFile {
  content : list byte;
  offset : Z;
  events : list IOEvent
}.

Definition openFile (bs : list byte) : File :=
  {| content := bs; offset := 0; events := [] |}.

(** The bytes in front of the read position. *)
Definition remaining (f : File) : list byte :=
  drop (Z.to_nat (offset f)) (content f).

(** [f.Seek(pos, os.SEEK_SET)]: a negative offset is refused and leaves
    the position where it was. *)
Definition Seek (f : File) (pos : Z) : option error * File :=
  if pos <? 0
  then (Some "seek: invalid argument"%string,
        {| content := content f; offset := offset f;
           events := events f ++ [EvSeek pos] |})
  else (None,
        {| content := content f; offset := pos;
           events := events f ++ [EvSeek pos] |}).

(** [f.Read(p)] with [len(p) = n]: delivers what is left, at most [n]
    bytes, and moves the position behind them. *)
Definition Read (f : File) (n : nat) : list byte * File :=
  let bs := take n (remaining f) in
  (bs, {| content := content f;
          offset := offset f + Z.of_nat (length bs);
          events := events f ++ [EvRead (offset f) (length bs)] |}).

(** [io.LimitedReader]: at most [N] further bytes are handed out; once
    [N <= 0] the underlying reader is not called any more. *)
Record LimitedReader : Type := mkLimitedReader {
  R : File;
  N : Z
}.

Definition LimitedReader_Read (l : LimitedReader) (n : nat)
  : list byte * LimitedReader :=
  if N l <=? 0 then ([], l)
  else
    let '(bs, f') := Read (R l) (Nat.min n (Z.to_nat (N l))) in
    (bs, {| R := f'; N := N l - Z.of_nat (length bs) |}).

(** [bytes.Buffer.ReadFrom(limitedRd)]: the buffer offers [MinRead]
    bytes of room to the reader, call after call, until a call reports the
    end: the limit is used up, or the file has nothing left. Every call
    but the last delivers a byte at least, so [S (Z.to_nat (N l))] calls
    reach the end. *)
Definition MinRead : nat := 512.

Fixpoint ReadFrom_loop (calls : nat) (l : LimitedReader) (buf : list byte)
  : list byte * LimitedReader :=
  match calls with
  | O => (buf, l)
  | S calls' =>
      let '(bs, l') := LimitedReader_Read l MinRead in
      match bs with
      | [] => (buf, l')
      | _ => ReadFrom_loop calls' l' (buf ++ bs)
      end
  end.

Definition ReadFrom (l : LimitedReader) : list byte * LimitedReader :=
  ReadFrom_loop (S (Z.to_nat (N l))) l [].

Arguments ReadFrom_loop : simpl never.

(** ** Payload decoders

    A [func(io.Reader) (Framer, error)] is a program that asks its reader
    for bytes, a request at a time, and finally returns a frame or an
    error. *)
Inductive ParseFunc (A : Type) : Type :=
| Return (r : result A)
| ReadBytes (n : nat) (k : list byte -> ParseFunc A).
Arguments Return {A} r.
Arguments ReadBytes {A} n k.

(** Running a decoder against a limited reader. *)
Fixpoint runParseFunc {A} (p : ParseFunc A) (l : LimitedReader)
  : result A * LimitedReader :=
  match p with
  | Return r => (r, l)
  | ReadBytes n k =>
      let '(bs, l') := LimitedReader_Read l n in
      runParseFunc (k bs) l'
  end.

(** Running a decoder against a plain sequence of bytes. *)
Fixpoint decode {A} (p : ParseFunc A) (bs : list byte) : result A :=
  match p with
  | Return r => r
  | ReadBytes n k => decode (k (take n bs)) (drop n bs)
  end.

(** ** Constants and helpers that parse.go imports *)

Definition frameHeaderSize : Z := 10.

(** Modelled from the spec: [tagHeaderSize], the size of the container
    header, is declared outside parse.go; the spec gives 10 bytes. *)
Definition tagHeaderSize : Z := 10.

(** Modelled from the spec: [util.ParseSize] is not in parse.go. Each
    byte gives its low 7 bits as one base-128 digit, the most significant
    byte first; there is no error path. *)
Definition ParseSize (sizeBytes : list byte) : Z :=
  fold_left (fun size b => Z.lor (Z.shiftl size 7) (Z.land (byteZ b) 127))
            sizeBytes 0.

(** The largest value of the size codec on four bytes. *)
Definition maxSize : Z := 2 ^ 28 - 1.

(** Modelled from the spec: the 3-byte magic identifier of the container;
    the error messages of parse.go name the format, ID3. *)
Definition id3Identifier : list byte := list_byte_of_string "ID3".

Record tagHeader : Type := mkTagHeader {
  Version : byte;
  FramesSize : Z
}.

(** Modelled from the spec: [parseHeader] is not in parse.go. It reads
    the 10 leading bytes; when the first three are not the magic identifier
    there is no header, which is not an error; a header cut short is a
    structural failure; otherwise byte 3 is the major version and bytes 6
    to 9 the size of the frame region, decoded by the size codec. The read
    moves the position of the source behind the header. *)
Definition parseHeader (rd : File) : result (option tagHeader) * File :=
  let '(buf, l) := ReadFrom {| R := rd; N := tagHeaderSize |} in
  if negb (bool_decide (take 3 buf = id3Identifier)) then (Ok None, R l)
  else if Z.of_nat (length buf) <? tagHeaderSize
  then (Err "Size of tag header is less than expected", R l)
  else (Ok (Some {| Version := nth 3 buf x00;
                    FramesSize := ParseSize (take 4 (drop 6 buf)) |}), R l).

(** ** Frame headers and coordinates *)

Record frameHeader : Type := mkFrameHeader {
  ID : string;
  FrameSize : Z
}.

Record frameCoordinates : Type := mkFrameCoordinates {
  Len : Z;
  Pos : Z
}.

Definition parseFrameHeader (rd : File) : result frameHeader * File :=
  let limitedRd := {| R := rd; N := frameHeaderSize |} in
  let '(fhBuf, limitedRd') := ReadFrom limitedRd in
  let n := Z.of_nat (length fhBuf) in
  if n <? frameHeaderSize
  then (Err "Size of frame header is less than expected", R limitedRd')
  else
    let byteHeader := fhBuf in
    (Ok {| ID := string_of_list_byte (take 4 byteHeader);
           FrameSize := ParseSize (take 4 (drop 4 byteHeader)) |},
     R limitedRd').

(** ** The layout of the frame region, in the words of the spec

    The frame region is a run of frames, each a 10-byte header (a 4-byte
    identifier, a 4-byte size field, 2 flag bytes) followed by as many
    payload bytes as the size field says. *)

Record diskFrame : Type := mkDiskFrame {
  frameAt : Z;       (* offset of the first byte of the frame header *)
  frameID : string;
  frameLen : Z
}.

(** The frame header that the bytes at offset [p] spell, if ten bytes are
    there. *)
Definition headerAt (bs : list byte) (p : Z) : option frameHeader :=
  let hd := take 10 (drop (Z.to_nat p) bs) in
  if (length hd <? 10)%nat then None
  else Some {| ID := string_of_list_byte (take 4 hd);
               FrameSize := ParseSize (take 4 (drop 4 hd)) |}.

(** [frameRegion bs tagEnd p fs]: from offset [p] up to the tag end the
    bytes hold the frames [fs], one behind the other, all headers whole. *)
Inductive frameRegion (bs : list byte) (tagEnd : Z)
  : Z -> list diskFrame -> Prop :=
| region_end p :
    tagEnd <= p -> frameRegion bs tagEnd p []
| region_frame p h fs :
    p < tagEnd ->
    headerAt bs p = Some h ->
    frameRegion bs tagEnd (p + 10 + FrameSize h) fs ->
    frameRegion bs tagEnd p
      ({| frameAt := p; frameID := ID h; frameLen := FrameSize h |} :: fs).

(** The coordinates of a frame: its payload starts behind the header. *)
Definition coordsOfFrame (fr : diskFrame) : frameCoordinates :=
  {| Len := frameLen fr; Pos := frameAt fr + 10 |}.

(** The coordinates of the frames named [id], in the order of the disk. *)
Definition coordsOf (id : string) (fs : list diskFrame)
  : list frameCoordinates :=
  coordsOfFrame <$> filter (fun fr => frameID fr = id) fs.

(** What a scan of [fs] does to the file: a seek to each frame header
    and a read of its ten bytes. *)
Definition scanEvents (fs : list diskFrame) : list IOEvent :=
  fs ≫= (fun fr => [EvSeek (frameAt fr); EvRead (frameAt fr) 10]).

(** The payload bytes that a coordinate pair delimits. *)
Definition payload (bs : list byte) (fc : frameCoordinates) : list byte :=
  take (Z.to_nat (Len fc)) (drop (Z.to_nat (Pos fc)) bs).

(** A read that stays inside the payload range of [fc]. *)
Definition readWithin (fc : frameCoordinates) (ev : IOEvent) : Prop :=
  match ev with
  | EvSeek _ => False
  | EvRead p n => Pos fc <= p /\ p + Z.of_nat n <= Pos fc + Z.max 0 (Len fc)
  end.

(** The cursor [q] lies behind the frame whose header is at the cursor
    [p]: the ten bytes of the frame header and a decoded frame size that is
    not negative further on. *)
Definition advance (bs : list byte) (p q : Z) : Prop :=
  exists header,
    headerAt bs p = Some header
    /\ 0 <= FrameSize header
    /\ q = p + frameHeaderSize + FrameSize header.

(** ** What the tag takes from the rest of the package

    The [Framer] interface, the four payload decoders and the two
    identifier tables are declared outside parse.go; the development is
    parametric in them. *)
Class FrameCodecs : Type := {
  Framer : Type;
  parseTextFrame : ParseFunc Framer;
  parsePictureFrame : ParseFunc Framer;
  parseCommentFrame : ParseFunc Framer;
  parseUnsynchronisedLyricsFrame : ParseFunc Framer;
  V23IDs : gmap string string;
  V24IDs : gmap string string
}.

Section Parse.
Context `{FC : FrameCodecs}.

(** Modelled from the spec: the declaration of [Tag] is not in parse.go.
    The fields are those that [newTag] fills in; its maps [frames] and
    [sequences] together are the decoded frame store, which the spec has
    as a mapping from an identifier to the ordered sequence of its decoded
    values, and are kept here as the one map [frames]. *)
Record Tag : Type := mkTag {
  framesCoords : gmap string (list frameCoordinates);
  frames : gmap string (list Framer);
  file : File;
  originalSize : Z;
  version : byte;
  ids : gmap string string
}.

Definition withFile (t : Tag) (f : File) : Tag :=
  {| framesCoords := framesCoords t; frames := frames t; file := f;
     originalSize := originalSize t; version := version t; ids := ids t |}.

Definition withFramesCoords (t : Tag)
    (m : gmap string (list frameCoordinates)) : Tag :=
  {| framesCoords := m; frames := frames t; file := file t;
     originalSize := originalSize t; version := version t; ids := ids t |}.

Definition withFrames (t : Tag) (m : gmap string (list Framer)) : Tag :=
  {| framesCoords := framesCoords t; frames := m; file := file t;
     originalSize := originalSize t; version := version t; ids := ids t |}.

Definition newTag (file : File) (originalSize : Z) (version : byte) : Tag :=
  {| framesCoords := ∅;
     frames := ∅;
     file := file;
     originalSize := originalSize;
     version := version;
     ids := if bool_decide (version = x03) then V23IDs else V24IDs |}.

(** Modelled from the spec: the method [t.ID] is not in parse.go. It is a
    pure lookup in the table chosen by [newTag]; a name the table lacks
    gives the empty identifier, as a Go map does. *)
Definition Tag_ID (t : Tag) (description : string) : string :=
  default ""%string (ids t !! description).

(** Modelled from the spec: the method [t.AddFrame] is not in parse.go.
    On success the decoded value is appended to the decoded frame store
    under its identifier, preserving order. *)
Definition AddFrame (t : Tag) (id : string) (f : Framer) : Tag :=
  withFrames t (<[id := default [] (frames t !! id) ++ [f]]> (frames t)).

(** *** The structural scan *)

(** One turn of the loop of [findAllFrames], entered with [pos < tagSize]:
    the error of the turn, the tag as the turn leaves it and the new
    cursor. *)
Definition findAllFrames_body (t : Tag) (pos : Z) : option error * Tag * Z :=
  match Seek (file t) pos with
  | (Some err, f1) => (Some err, withFile t f1, pos)
  | (None, f1) =>
      match parseFrameHeader f1 with
      | (Err err, f2) => (Some err, withFile t f2, pos)
      | (Ok header, f2) =>
          let pos1 := wrap64 (pos + frameHeaderSize) in
          let fc := {| Len := FrameSize header; Pos := pos1 |} in
          let fcs := default [] (framesCoords t !! ID header) in
          let fcs := fcs ++ [fc] in
          (None,
           withFramesCoords (withFile t f2)
             (<[ID header := fcs]> (framesCoords t)),
           wrap64 (pos1 + FrameSize header))
      end
  end.

(** The loop of [findAllFrames], [fuel] turns at most; [None] when the
    turns are used up before the loop has ended. *)
Fixpoint findAllFrames_loop (fuel : nat) (tagSize : Z) (t : Tag) (pos : Z)
  : option (option error * Tag) :=
  match fuel with
  | O => None
  | S fuel' =>
      if pos <? tagSize then
        match findAllFrames_body t pos with
        | (Some err, t', _) => Some (Some err, t')
        | (None, t', pos') => findAllFrames_loop fuel' tagSize t' pos'
        end
      else Some (None, t)
  end.

(** A number of turns that the loop never exceeds: every turn that goes
    on has read a whole frame header below the tag end. *)
Definition scanFuel (t : Tag) : nat :=
  Z.to_nat (Z.min (originalSize t) (Z.of_nat (length (content (file t)))) / 10)
  + 2.

Definition findAllFrames (t : Tag) : option (option error * Tag) :=
  let pos := tagHeaderSize in
  let tagSize := originalSize t in
  findAllFrames_loop (scanFuel t) tagSize t pos.

(** The turns of the loop [for pos < tagSize] of [findAllFrames], one by
    one. [scanRun tagSize t pos turns e t' pos']: entered with the tag [t]
    and the cursor [pos], the loop makes a turn at each cursor of [turns],
    in that order, and is left with the error [e], the tag [t'] and the
    cursor [pos']. It is left by the test, when the cursor has reached the
    tag end, or by the [return err] of a turn whose seek or header read
    failed. *)
Inductive scanRun (tagSize : Z)
  : Tag -> Z -> list Z -> option error -> Tag -> Z -> Prop :=
| scanRun_end t pos :
    tagSize <= pos ->
    scanRun tagSize t pos [] None t pos
| scanRun_error t pos err t' pos' :
    pos < tagSize ->
    findAllFrames_body t pos = (Some err, t', pos') ->
    scanRun tagSize t pos [pos] (Some err) t' pos'
| scanRun_turn t pos t1 pos1 turns e t' pos' :
    pos < tagSize ->
    findAllFrames_body t pos = (None, t1, pos1) ->
    scanRun tagSize t1 pos1 turns e t' pos' ->
    scanRun tagSize t pos (pos :: turns) e t' pos'.

(** [parseTag]: the tag and the error it returns, and the file handle as
    the call leaves it. *)
Definition parseTag (file : option File)
  : option (option Tag * option error * option File) :=
  match file with
  | None => Some (None, Some "Invalid file: file is nil"%string, None)
  | Some file =>
      match parseHeader file with
      | (Err err, file') =>
          Some (None,
                Some (String.append "Trying to parse tag header: " err),
                Some file')
      | (Ok None, file') =>
          Some (Some (newTag file' 0 x04), None, Some file')
      | (Ok (Some header), file') =>
          if (Byte.to_N (Version header) <? 3)%N
          then Some (None, Some "Unsupported version of ID3 tag"%string,
                     Some file')
          else
            let t := newTag file' (wrap64 (tagHeaderSize + FramesSize header))
                            (Version header) in
            match findAllFrames t with
            | None => None
            | Some (err, t') => Some (Some t', err, Some (Parse.file t'))
            end
      end
  end.

(** *** Lazy decoding *)

(** [findParseFunc]: [id[0]] faults on the empty identifier. *)
Definition findParseFunc (t : Tag) (id : string)
  : result (option (ParseFunc Framer)) :=
  match id with
  | EmptyString => Err "runtime error: index out of range"
  | String c _ =>
      if Ascii.eqb c "T" then Ok (Some parseTextFrame)
      else if String.eqb id (Tag_ID t "Attached picture")
      then Ok (Some parsePictureFrame)
      else if String.eqb id (Tag_ID t "Comments")
      then Ok (Some parseCommentFrame)
      else if String.eqb id
                (Tag_ID t "Unsynchronised lyrics/text transcription")
      then Ok (Some parseUnsynchronisedLyricsFrame)
      else Ok None
  end.

(** [readFrame]: the result of the seek is dropped; [Err] is the panic. *)
Definition readFrame (parseFunc : ParseFunc Framer) (rs : File)
    (fc : frameCoordinates) : result Framer * File :=
  let '(_, rs1) := Seek rs (Pos fc) in
  let rd := {| R := rs1; N := Len fc |} in
  let '(fr, rd') := runParseFunc parseFunc rd in
  (fr, R rd').

(** The loop over [fcs] in [parseFramesCoordsWithID]; a panic leaves the
    tag as it was when the decoder failed. *)
Fixpoint readFrames (parseFunc : ParseFunc Framer) (id : string)
    (fcs : list frameCoordinates) (t : Tag) : option error * Tag :=
  match fcs with
  | [] => (None, t)
  | fc :: fcs' =>
      match readFrame parseFunc (file t) fc with
      | (Err err, f') => (Some err, withFile t f')
      | (Ok fr, f') =>
          readFrames parseFunc id fcs' (AddFrame (withFile t f') id fr)
      end
  end.

Definition parseFramesCoordsWithID (t : Tag) (id : string)
  : option error * Tag :=
  match framesCoords t !! id with
  | None => (None, t)
  | Some fcs =>
      match findParseFunc t id with
      | Err err => (Some err, t)
      | Ok None => (None, withFramesCoords t (delete id (framesCoords t)))
      | Ok (Some parseFunc) =>
          match readFrames parseFunc id fcs t with
          | (Some err, t') => (Some err, t')
          | (None, t') =>
              (None, withFramesCoords t' (delete id (framesCoords t')))
          end
      end
  end.

(** The [range] of [parseAllFramesCoords] taken in the order [order]; the
    first panic ends it. *)
Fixpoint parseFramesCoordsInOrder (order : list string) (t : Tag)
  : option error * Tag :=
  match order with
  | [] => (None, t)
  | id :: order' =>
      match parseFramesCoordsWithID t id with
      | (Some err, t') => (Some err, t')
      | (None, t') => parseFramesCoordsInOrder order' t'
      end
  end.

(** [parseAllFramesCoords]: Go leaves the order of a [range] over a map
    open; the order of [map_to_list] is one of them. *)
Definition parseAllFramesCoords (t : Tag) : option error * Tag :=
  parseFramesCoordsInOrder (map_to_list (framesCoords t)).*1 t.

(** What the scan of the frames [fs] makes of the tag [t]: every
    identifier gets the coordinates of its frames appended in the order of
    the disk, the file is sought and read at the frame headers only, and
    nothing else changes. *)
Definition scanned (t : Tag) (fs : list diskFrame) (t' : Tag) : Prop :=
  (forall id,
      framesCoords t' !! id
      = match coordsOf id fs with
        | [] => framesCoords t !! id
        | cs => Some (default [] (framesCoords t !! id) ++ cs)
        end)
  /\ frames t' = frames t
  /\ content (file t') = content (file t)
  /\ events (file t') = events (file t) ++ scanEvents fs
  /\ originalSize t' = originalSize t
  /\ version t' = version t
  /\ ids t' = ids t.

(** *** Pending and resolved

    No identifier is at once pending in the coordinate index and resolved
    in the decoded frame store. *)
Definition pendingOrResolved (t : Tag) : Prop :=
  forall id, is_Some (framesCoords t !! id) -> frames t !! id = None.

End Parse.

(** ** Sample codecs and sample files

    Stand-ins for the decoders and tables of the package, used to run the
    parser on concrete files: a decoded frame is the list of the bytes its
    decoder consumed after the leading encoding byte. *)

Definition sampleDecoder (msg : string) : ParseFunc (list byte) :=
  ReadBytes 1 (fun enc =>
    match enc with
    | [] => Return (Err msg)
    | _ => ReadBytes 4096 (fun bs => Return (Ok bs))
    end).

Definition sampleIDs : gmap string string :=
  <["Attached picture"%string := "APIC"%string]>
  (<["Comments"%string := "COMM"%string]>
  (<["Unsynchronised lyrics/text transcription"%string := "USLT"%string]> ∅)).

Definition sampleCodecs : FrameCodecs :=
  {| Framer := list byte;
     parseTextFrame := sampleDecoder "text frame without encoding";
     parsePictureFrame := sampleDecoder "picture frame without encoding";
     parseCommentFrame := sampleDecoder "comment frame without encoding";
     parseUnsynchronisedLyricsFrame :=
       sampleDecoder "lyrics frame without encoding";
     V23IDs := sampleIDs;
     V24IDs := sampleIDs |}.

(** A frame on disk: identifier, size field, two flag bytes, payload. *)
Definition frameBytes (id : string) (size : list byte) (payload : list byte)
  : list byte :=
  list_byte_of_string id ++ size ++ [x00; x00] ++ payload.

Definition headerBytes (version : byte) (size : list byte) : list byte :=
  list_byte_of_string "ID3" ++ [version; x00; x00] ++ size.

(** Version 4, four frames: a title, two comments and a frame of an
    identifier that no decoder takes. *)
Definition sampleTagBytes : list byte :=
  headerBytes x04 [x00; x00; x00; x36]
  ++ frameBytes "TIT2" [x00; x00; x00; x06] (x00 :: list_byte_of_string "Hello")
  ++ frameBytes "COMM" [x00; x00; x00; x03] (x00 :: list_byte_of_string "ab")
  ++ frameBytes "COMM" [x00; x00; x00; x03] (x00 :: list_byte_of_string "cd")
  ++ frameBytes "PRIV" [x00; x00; x00; x02] [x01; x02].

(** The same tag cut in the middle of its third frame header. *)
Definition truncatedTagBytes : list byte := take 45 sampleTagBytes.

(** A header that announces major version 5. *)
Definition version5TagBytes : list byte :=
  headerBytes x05 [x00; x00; x00; x10]
  ++ frameBytes "TIT2" [x00; x00; x00; x06]
       (x00 :: list_byte_of_string "Hello").

(** A frame whose payload is empty: the sample decoders reject it. *)
Definition emptyCommentTagBytes : list byte :=
  headerBytes x03 [x00; x00; x00; x17]
  ++ frameBytes "COMM" [x00; x00; x00; x03] (x00 :: list_byte_of_string "ab")
  ++ frameBytes "COMM" [x00; x00; x00; x00] [].

(** A header that announces major version 2. *)
Definition version2TagBytes : list byte :=
  headerBytes x02 [x00; x00; x00; x10]
  ++ frameBytes "TIT2" [x00; x00; x00; x06]
       (x00 :: list_byte_of_string "Hello").

(** The frames of [sampleTagBytes]. *)
Definition sampleFrames : list diskFrame :=
  [ {| frameAt := 10; frameID := "TIT2"; frameLen := 6 |};
    {| frameAt := 26; frameID := "COMM"; frameLen := 3 |};
    {| frameAt := 39; frameID := "COMM"; frameLen := 3 |};
    {| frameAt := 52; frameID := "PRIV"; frameLen := 2 |} ].

(** The tag that the scan of a file makes, for the sample codecs. *)
Definition scannedTag (bs : list byte) (size : Z) (v : byte)
  : @Tag sampleCodecs :=
  match findAllFrames (newTag (openFile bs) (tagHeaderSize + size) v) with
  | Some (_, t) => t
  | None => newTag (openFile bs) (tagHeaderSize + size) v
  end.

Definition sampleTag : @Tag sampleCodecs := scannedTag sampleTagBytes 54 x04.

Definition emptyCommentTag : @Tag sampleCodecs :=
  scannedTag emptyCommentTagBytes 23 x03.

(** The tag that [parseTag] returns for the sample file. *)
Definition parsedSampleTag : @Tag sampleCodecs :=
  match parseTag (Some (openFile sampleTagBytes)) with
  | Some (Some t, _, _) => t
  | _ => newTag (openFile sampleTagBytes) 0 x04
  end.

(** ** Tactics for the sample files *)

(** One frame of a concrete frame region, its header given. *)
Ltac region_step h :=
  apply (region_frame _ _ _ h);
  [unfold tagHeaderSize; lia | vm_compute; reflexivity | simpl].

(** A decidable fact, settled by evaluation. *)
Ltac by_evaluation :=
  cbv zeta;
  match goal with
  | |- ?P => refine (@bool_decide_unpack P _ _); vm_compute; exact I
  end.

(** * Properties *)

(** ** Arithmetic of the size codec and of the cursor *)

Lemma wrap64_small z : min_int64 <= z <= max_int64 -> wrap64 z = z.
Proof.
  unfold wrap64, min_int64, max_int64. intros Hz.
  rewrite Z.mod_small; lia.
Qed.

Lemma wrap64_range z : min_int64 <= wrap64 z <= max_int64.
Proof.
  unfold wrap64, min_int64, max_int64.
  pose proof (Z.mod_pos_bound (z + 2 ^ 63) (2 ^ 64)). lia.
Qed.

(** An addition that overflows lands below zero. *)
Lemma wrap64_overflow z :
  max_int64 < z <= max_int64 + 2 ^ 63 -> wrap64 z = z - 2 ^ 64.
Proof.
  unfold wrap64, max_int64. intros Hz.
  replace (z + 2 ^ 63) with ((z - 2 ^ 63) + 1 * 2 ^ 64) by lia.
  rewrite Z.mod_add by lia. rewrite Z.mod_small; lia.
Qed.

Lemma byteZ_range b : 0 <= byteZ b < 256.
Proof.
  unfold byteZ. pose proof (Byte.to_N_bounded b). lia.
Qed.

Lemma digit_range b : 0 <= Z.land (byteZ b) 127 < 128.
Proof.
  change 127 with (Z.ones 7). rewrite Z.land_ones by lia.
  apply Z.mod_pos_bound. lia.
Qed.

Lemma shift_digit_disjoint a d :
  0 <= d < 128 -> Z.land (Z.shiftl a 7) d = 0.
Proof.
  intros Hd. apply Z.bits_inj'. intros n Hn.
  rewrite Z.land_spec, Z.bits_0.
  destruct (Z.lt_ge_cases n 7) as [Hlo | Hhi].
  - rewrite Z.shiftl_spec_low by lia. reflexivity.
  - rewrite (Z.bits_above_log2 d n); [apply andb_false_r | lia |].
    destruct (Z.eq_dec d 0) as [-> | Hnz]; [simpl; lia |].
    apply Z.log2_lt_pow2; [lia |].
    apply Z.lt_le_trans with (2 ^ 7); [lia |].
    apply Z.pow_le_mono_r; lia.
Qed.

(** One step of the size codec is a base-128 digit shifted in. *)
Lemma ParseSize_digit a b :
  Z.lor (Z.shiftl a 7) (Z.land (byteZ b) 127)
  = a * 128 + Z.land (byteZ b) 127.
Proof.
  pose proof (digit_range b) as Hd.
  pose proof (Zbitwise.Z.add_lor_land (Z.shiftl a 7)
                (Z.land (byteZ b) 127)) as Hsum.
  rewrite shift_digit_disjoint in Hsum by lia.
  rewrite Z.shiftl_mul_pow2 in Hsum by lia.
  rewrite Z.shiftl_mul_pow2 by lia. lia.
Qed.

Lemma ParseSize_fold_bounds bs a k :
  0 <= k -> 0 <= a < 128 ^ k ->
  0 <= fold_left (fun size b =>
         Z.lor (Z.shiftl size 7) (Z.land (byteZ b) 127)) bs a
    < 128 ^ (k + Z.of_nat (length bs)).
Proof.
  revert a k. induction bs as [| b bs IH]; intros a k Hk Ha; simpl.
  - rewrite Z.add_0_r. lia.
  - rewrite ParseSize_digit.
    replace (k + Z.of_nat (S (length bs)))
      with ((k + 1) + Z.of_nat (length bs)) by lia.
    apply IH; [lia |].
    pose proof (digit_range b).
    rewrite Z.pow_add_r by lia. change (128 ^ 1) with 128. nia.
Qed.

Lemma ParseSize_nonneg bs : 0 <= ParseSize bs.
Proof.
  unfold ParseSize.
  pose proof (ParseSize_fold_bounds bs 0 0 ltac:(lia) ltac:(simpl; lia)). lia.
Qed.

Lemma ParseSize_range bs :
  (length bs <= 4)%nat -> 0 <= ParseSize bs <= maxSize.
Proof.
  intros Hlen. unfold ParseSize, maxSize.
  pose proof (ParseSize_fold_bounds bs 0 0 ltac:(lia) ltac:(simpl; lia))
    as [H0 H1].
  split; [exact H0 |].
  assert (128 ^ (0 + Z.of_nat (length bs)) <= 128 ^ 4)
    by (apply Z.pow_le_mono_r; lia).
  change (128 ^ 4) with (2 ^ 28) in *. lia.
Qed.

(** ** Reading headers from the byte source *)

Lemma headerAt_size bs p h :
  headerAt bs p = Some h -> 0 <= FrameSize h <= maxSize.
Proof.
  unfold headerAt. case_match; [discriminate |].
  intros [= <-]. simpl. apply ParseSize_range.
  rewrite length_take. lia.
Qed.

Lemma headerAt_ID bs p h :
  headerAt bs p = Some h -> exists c rest, ID h = String c rest.
Proof.
  unfold headerAt. case_match eqn:Hlen; [discriminate |].
  intros [= <-]. simpl. apply Nat.ltb_ge in Hlen.
  destruct (take 10 (drop (Z.to_nat p) bs)) as [| b hd]; [simpl in Hlen; lia |].
  simpl. eauto.
Qed.

Lemma headerAt_available bs p h :
  0 <= p -> headerAt bs p = Some h -> p + 10 <= Z.of_nat (length bs).
Proof.
  unfold headerAt. intros Hp. case_match eqn:Hlen; [discriminate |].
  intros _. apply Nat.ltb_ge in Hlen.
  rewrite length_take, length_drop in Hlen. lia.
Qed.

Lemma LimitedReader_Read_content l n :
  content (R (LimitedReader_Read l n).2) = content (R l).
Proof.
  unfold LimitedReader_Read. destruct (N l <=? 0); reflexivity.
Qed.

Lemma ReadFrom_loop_step calls l buf :
  ReadFrom_loop (S calls) l buf
  = let '(bs, l') := LimitedReader_Read l MinRead in
    match bs with
    | [] => (buf, l')
    | _ => ReadFrom_loop calls l' (buf ++ bs)
    end.
Proof. reflexivity. Qed.

Lemma ReadFrom_loop_content calls l buf :
  content (R (ReadFrom_loop calls l buf).2) = content (R l).
Proof.
  revert l buf. induction calls as [| calls IH]; intros l buf;
    [reflexivity |].
  rewrite ReadFrom_loop_step.
  pose proof (LimitedReader_Read_content l MinRead) as Hc.
  destruct (LimitedReader_Read l MinRead) as [[| b bs] l']; simpl in *;
    [exact Hc |].
  rewrite IH. exact Hc.
Qed.

(** The calls that [ReadFrom] allows are enough: more of them change
    nothing. *)
Lemma ReadFrom_loop_enough calls calls' l buf :
  (Z.to_nat (N l) < calls)%nat -> (Z.to_nat (N l) < calls')%nat ->
  ReadFrom_loop calls l buf = ReadFrom_loop calls' l buf.
Proof.
  revert calls' l buf.
  induction calls as [| calls IH]; intros calls' l buf Hc Hc'; [lia |].
  destruct calls' as [| calls']; [lia |].
  rewrite !ReadFrom_loop_step. unfold LimitedReader_Read, Read.
  destruct (Z.leb_spec (N l) 0) as [| Hleft]; [reflexivity |].
  destruct (take (MinRead `min` Z.to_nat (N l)) (remaining (R l)))
    as [| b bs] eqn:Hbs; [reflexivity |].
  apply IH; simpl; lia.
Qed.

(** The first call for a header asks the file for its ten bytes. *)
Lemma ReadFrom_first_call f :
  LimitedReader_Read {| R := f; N := 10 |} MinRead
  = (take 10 (remaining f),
     {| R := {| content := content f;
                offset := offset f
                          + Z.of_nat (length (take 10 (remaining f)));
                events := events f
                          ++ [EvRead (offset f)
                                (length (take 10 (remaining f)))] |};
        N := 10 - Z.of_nat (length (take 10 (remaining f))) |}).
Proof. reflexivity. Qed.

(** A call at the limit ends the reading without a call of the file. *)
Lemma ReadFrom_loop_limit calls l buf :
  N l <= 0 -> ReadFrom_loop (S calls) l buf = (buf, l).
Proof.
  intros Hlimit. rewrite ReadFrom_loop_step. unfold LimitedReader_Read.
  destruct (Z.leb_spec (N l) 0); [reflexivity | lia].
Qed.

(** A call at the end of the file ends the reading. *)
Lemma ReadFrom_loop_eof calls l buf :
  remaining (R l) = [] -> (ReadFrom_loop (S calls) l buf).1 = buf.
Proof.
  intros Heof. rewrite ReadFrom_loop_step. unfold LimitedReader_Read, Read.
  destruct (N l <=? 0); [reflexivity |].
  rewrite Heof, take_nil. reflexivity.
Qed.

(** Ten bytes in front of the read position: one read takes them, and
    the limit ends the reading. *)
Lemma ReadFrom_full f :
  length (take 10 (remaining f)) = 10%nat ->
  ReadFrom {| R := f; N := 10 |}
  = (take 10 (remaining f),
     {| R := {| content := content f; offset := offset f + 10;
                events := events f ++ [EvRead (offset f) 10] |};
        N := 0 |}).
Proof.
  intros Hlen. unfold ReadFrom.
  change (S (Z.to_nat (N {| R := f; N := 10 |}))) with (S (S 9)).
  rewrite ReadFrom_loop_step, ReadFrom_first_call, Hlen.
  destruct (take 10 (remaining f)) as [| b bs] eqn:Hhd;
    [discriminate |].
  apply ReadFrom_loop_limit. simpl. lia.
Qed.

(** Fewer than ten bytes: the file hands out what it has and then
    reports its end. *)
Lemma ReadFrom_short f :
  0 <= offset f ->
  (length (take 10 (remaining f)) < 10)%nat ->
  exists l',
    ReadFrom {| R := f; N := 10 |} = (take 10 (remaining f), l')
    /\ content (R l') = content f.
Proof.
  intros Hoff Hlen. unfold ReadFrom.
  change (S (Z.to_nat (N {| R := f; N := 10 |}))) with (S (S 9)).
  exists (ReadFrom_loop (S (S 9)) {| R := f; N := 10 |} []).2.
  split; [| apply ReadFrom_loop_content].
  rewrite (surjective_pairing (ReadFrom_loop _ _ _)) at 1. f_equal.
  rewrite ReadFrom_loop_step, ReadFrom_first_call.
  assert (length (remaining f) < 10)%nat as Hrem
    by (rewrite length_take in Hlen; lia).
  destruct (take 10 (remaining f)) as [| b bs] eqn:Hhd; [reflexivity |].
  apply ReadFrom_loop_eof. unfold remaining in *. cbn [R content offset].
  assert (length (b :: bs) = length (drop (Z.to_nat (offset f)) (content f)))
    as Hall by (rewrite <- Hhd, length_take; lia).
  apply drop_ge. rewrite Hall, length_drop. lia.
Qed.

Lemma parseFrameHeader_content f :
  content (parseFrameHeader f).2 = content f.
Proof.
  unfold parseFrameHeader, ReadFrom.
  pose proof (ReadFrom_loop_content
                (S (Z.to_nat (N {| R := f; N := frameHeaderSize |})))
                {| R := f; N := frameHeaderSize |} []) as Hc.
  destruct (ReadFrom_loop _ _ _) as [buf l']. simpl in *.
  case_match; exact Hc.
Qed.

(** After a seek to [p] the frame header read is the header at [p]. *)
Lemma parseFrameHeader_at f p evs h :
  0 <= p -> headerAt (content f) p = Some h ->
  parseFrameHeader {| content := content f; offset := p; events := evs |}
  = (Ok h, {| content := content f; offset := p + 10;
              events := evs ++ [EvRead p 10] |}).
Proof.
  intros Hp Hh. unfold parseFrameHeader, frameHeaderSize.
  unfold headerAt in Hh.
  destruct (length (take 10 (drop (Z.to_nat p) (content f))) <? 10)%nat
    eqn:Hlen; [discriminate |].
  apply Nat.ltb_ge in Hlen.
  assert (length (take 10 (drop (Z.to_nat p) (content f))) = 10%nat) as Hten
    by (rewrite length_take in *; lia).
  rewrite ReadFrom_full by exact Hten.
  unfold remaining. simpl. rewrite Hten. simpl.
  injection Hh as <-. reflexivity.
Qed.

Lemma parseFrameHeader_short f p evs :
  0 <= p -> headerAt (content f) p = None ->
  exists f',
    parseFrameHeader {| content := content f; offset := p; events := evs |}
    = (Err "Size of frame header is less than expected", f').
Proof.
  intros Hp Hh. unfold parseFrameHeader, frameHeaderSize.
  unfold headerAt in Hh.
  destruct (length (take 10 (drop (Z.to_nat p) (content f))) <? 10)%nat
    eqn:Hlen; [| discriminate].
  apply Nat.ltb_lt in Hlen.
  destruct (ReadFrom_short
              {| content := content f; offset := p; events := evs |}
              Hp Hlen) as (l' & -> & _).
  unfold remaining. simpl.
  destruct (Z.ltb_spec
              (Z.of_nat (length (take 10 (drop (Z.to_nat p) (content f)))))
              10); [| lia].
  eexists. reflexivity.
Qed.

(** ** Limited readers *)

(** What is left of a window of [m] bytes after a request for [n] of
    them took [k] bytes. *)
Lemma window_rest {A} (l : list A) n m :
  drop n (take m l)
  = take (m - (n `min` m) `min` length l) (drop ((n `min` m) `min` length l) l).
Proof.
  rewrite skipn_firstn_comm.
  destruct (decide (n <= m /\ n <= length l)%nat) as [[? ?] | Hout].
  - replace ((n `min` m) `min` length l)%nat with n by lia. reflexivity.
  - destruct (decide (length l <= n)%nat).
    + rewrite (drop_ge l n) by lia. rewrite take_nil.
      destruct (decide (length l <= m)%nat).
      * replace ((n `min` m) `min` length l)%nat with (length l) by lia.
        rewrite drop_all, take_nil. reflexivity.
      * replace ((n `min` m) `min` length l)%nat with m by lia.
        rewrite Nat.sub_diag. reflexivity.
    + replace ((n `min` m) `min` length l)%nat with m by lia.
      replace (m - n)%nat with 0%nat by lia.
      rewrite Nat.sub_diag. reflexivity.
Qed.

Lemma runParseFunc_content {A} (pf : ParseFunc A) l :
  content (R (runParseFunc pf l).2) = content (R l).
Proof.
  revert l. induction pf as [r | n k IH]; intros l; simpl; [reflexivity |].
  pose proof (LimitedReader_Read_content l n) as Hc.
  destruct (LimitedReader_Read l n) as [bs l'].
  rewrite IH. exact Hc.
Qed.

(** A decoder run against a limited reader sees the window of [N] bytes
    in front of the read position and nothing behind it: its result is
    that of the decoder on the window, and every read that reaches the
    file lies inside the window. *)
Lemma runParseFunc_window {A} (pf : ParseFunc A) l :
  0 <= offset (R l) ->
  exists evs,
    (runParseFunc pf l).1
    = decode pf (take (Z.to_nat (N l)) (remaining (R l)))
    /\ events (R (runParseFunc pf l).2) = events (R l) ++ evs
    /\ Forall (readWithin {| Len := N l; Pos := offset (R l) |}) evs.
Proof.
  revert l. induction pf as [r | n k IH]; intros l Hoff; simpl.
  - exists []. rewrite app_nil_r. auto.
  - unfold LimitedReader_Read.
    destruct (Z.leb_spec (N l) 0) as [Hdone | Hleft].
    + destruct (IH [] l Hoff) as (evs & Hres & Hevents & Hwithin).
      exists evs. split; [| auto].
      rewrite Hres. replace (Z.to_nat (N l)) with 0%nat by lia.
      rewrite !take_0, take_nil, drop_nil. reflexivity.
    + unfold Read.
      set (bs := take (n `min` Z.to_nat (N l)) (remaining (R l))).
      set (l' := {| R := {| content := content (R l);
                            offset := offset (R l) + Z.of_nat (length bs);
                            events := events (R l)
                                      ++ [EvRead (offset (R l)) (length bs)] |};
                    N := N l - Z.of_nat (length bs) |}).
      assert (length bs
              = ((n `min` Z.to_nat (N l)) `min` length (remaining (R l)))%nat)
        as Hlen by (unfold bs; apply length_take).
      destruct (IH bs l' ltac:(simpl; lia)) as (evs & Hres & Hevents & Hwithin).
      exists (EvRead (offset (R l)) (length bs) :: evs).
      split; [| split].
      * rewrite Hres. f_equal.
        -- f_equal. rewrite take_take. reflexivity.
        -- rewrite window_rest, <- Hlen. simpl. unfold remaining. simpl.
           rewrite drop_drop. f_equal; [lia |]. f_equal. lia.
      * rewrite Hevents. simpl. rewrite <- app_assoc. reflexivity.
      * constructor; [simpl; lia |].
        eapply Forall_impl; [exact Hwithin |].
        intros [? | p m]; simpl; [tauto | lia].
Qed.

Section Theory.
Context `{FC : FrameCodecs}.

(** ** One turn of the scan *)

Lemma findAllFrames_body_frame (t : Tag) p h :
  0 <= p -> headerAt (content (file t)) p = Some h ->
  findAllFrames_body t p
  = (None,
     withFramesCoords
       (withFile t {| content := content (file t); offset := p + 10;
                      events := events (file t) ++ [EvSeek p; EvRead p 10] |})
       (<[ID h := default [] (framesCoords t !! ID h)
                  ++ [{| Len := FrameSize h; Pos := wrap64 (p + 10) |}]]>
          (framesCoords t)),
     wrap64 (wrap64 (p + 10) + FrameSize h)).
Proof.
  intros Hp Hh. unfold findAllFrames_body, Seek, frameHeaderSize.
  destruct (Z.ltb_spec p 0); [lia |].
  rewrite (parseFrameHeader_at (file t) p _ h Hp Hh).
  rewrite <- app_assoc. reflexivity.
Qed.

(** A turn that goes on has found a whole header at a cursor that is not
    negative. *)
Lemma findAllFrames_body_goes_on (t t' : Tag) p p' :
  findAllFrames_body t p = (None, t', p') ->
  0 <= p /\
  exists h, headerAt (content (file t)) p = Some h
            /\ p' = wrap64 (wrap64 (p + 10) + FrameSize h)
            /\ content (file t') = content (file t).
Proof.
  intros Hbody.
  assert (0 <= p) as Hp.
  { unfold findAllFrames_body, Seek in Hbody.
    destruct (Z.ltb_spec p 0); [discriminate | lia]. }
  split; [exact Hp |].
  destruct (headerAt (content (file t)) p) as [h |] eqn:Hh.
  - exists h. rewrite (findAllFrames_body_frame t p h Hp Hh) in Hbody.
    injection Hbody as <- <-. auto.
  - exfalso. unfold findAllFrames_body, Seek in Hbody.
    destruct (Z.ltb_spec p 0); [lia |].
    destruct (parseFrameHeader_short (file t) p
                (events (file t) ++ [EvSeek p]) Hp Hh) as (f' & Hf').
    rewrite Hf' in Hbody. discriminate.
Qed.

(** A turn keeps the bytes of the file, whatever its outcome. *)
Lemma findAllFrames_body_content (t t' : Tag) p p' e :
  findAllFrames_body t p = (e, t', p') ->
  content (file t') = content (file t).
Proof.
  unfold findAllFrames_body, Seek.
  destruct (p <? 0); [intros [= <- <- <-]; reflexivity |].
  match goal with
  | |- context [parseFrameHeader ?f] =>
      pose proof (parseFrameHeader_content f) as Hc;
      destruct (parseFrameHeader f) as [[h | err] f2]
  end; intros [= <- <- <-]; exact Hc.
Qed.


(** ** The loop of the scan *)

Lemma findAllFrames_loop_mono tagSize n m (t : Tag) p r :
  findAllFrames_loop n tagSize t p = Some r ->
  (n <= m)%nat ->
  findAllFrames_loop m tagSize t p = Some r.
Proof.
  revert m t p. induction n as [| n IH]; intros m t p Hn Hle;
    [discriminate |].
  destruct m as [| m]; [lia |].
  simpl in *. destruct (p <? tagSize); [| exact Hn].
  destruct (findAllFrames_body t p) as [[[err |] t'] p']; [exact Hn |].
  apply IH; [exact Hn | lia].
Qed.

(** The cursor of a turn that goes on: behind the frame, or below zero
    when the addition overflowed. *)
Lemma next_cursor p size :
  0 <= p <= max_int64 -> 0 <= size <= maxSize ->
  let p' := wrap64 (wrap64 (p + 10) + size) in
  min_int64 <= p' <= max_int64
  /\ (p' < 0 \/ p' = p + 10 + size)
  /\ (p + 10 + size <= max_int64 -> p' = p + 10 + size).
Proof.
  intros Hp Hs p'. split; [apply wrap64_range |].
  unfold p'. clear p'. unfold maxSize, max_int64, min_int64 in *.
  destruct (Z_le_gt_dec (p + 10) (2 ^ 63 - 1)) as [Hfit | Hover].
  - rewrite (wrap64_small (p + 10))
      by (unfold min_int64, max_int64; lia).
    destruct (Z_le_gt_dec (p + 10 + size) (2 ^ 63 - 1)) as [Hfit' | Hover'].
    + rewrite wrap64_small by (unfold min_int64, max_int64; lia). lia.
    + rewrite wrap64_overflow by (unfold max_int64; lia). lia.
  - rewrite (wrap64_overflow (p + 10)) by (unfold max_int64; lia).
    rewrite wrap64_small by (unfold min_int64, max_int64; lia). lia.
Qed.

(** Enough turns: every turn that goes on has read ten bytes below the
    tag end and moved the cursor ten bytes on at least. *)
Lemma findAllFrames_loop_ends tagSize n (t : Tag) p :
  (1 <= n)%nat ->
  min_int64 <= p <= max_int64 ->
  p < 0
  \/ Z.min tagSize (Z.of_nat (length (content (file t))) - 9)
     <= p + 10 * (Z.of_nat n - 1) ->
  is_Some (findAllFrames_loop n tagSize t p).
Proof.
  revert t p. induction n as [| n IH]; intros t p Hn Hp Hfuel; [lia |].
  simpl. destruct (Z.ltb_spec p tagSize) as [Hlt |]; [| eauto].
  destruct (findAllFrames_body t p) as [[[err |] t'] p'] eqn:Hbody;
    [eauto |].
  destruct (findAllFrames_body_goes_on t t' p p' Hbody)
    as (Hp0 & h & Hh & -> & Hcontent).
  pose proof (headerAt_available _ _ _ Hp0 Hh) as Havail.
  pose proof (headerAt_size _ _ _ Hh) as Hsize.
  destruct (next_cursor p (FrameSize h) ltac:(lia) Hsize)
    as (Hrange & Hnext & _).
  apply IH; [lia | exact Hrange |].
  rewrite Hcontent. destruct Hnext as [Hneg | ->]; [left; exact Hneg |].
  right. lia.
Qed.

Lemma scanFuel_enough (t : Tag) :
  Z.min (originalSize t) (Z.of_nat (length (content (file t))) - 9)
  <= tagHeaderSize + 10 * (Z.of_nat (scanFuel t) - 1).
Proof.
  unfold scanFuel, tagHeaderSize.
  set (m := Z.min (originalSize t) (Z.of_nat (length (content (file t))))).
  assert (Z.min (originalSize t)
                (Z.of_nat (length (content (file t))) - 9) <= m)
    by (unfold m; lia).
  pose proof (Z.mul_succ_div_gt m 10 ltac:(lia)).
  destruct (Z_le_gt_dec 0 (m / 10)).
  - rewrite Nat2Z.inj_add, Z2Nat.id by lia. lia.
  - assert (m < 0) by (pose proof (Z.div_pos m 10); lia). lia.
Qed.

Lemma tagSizeFuel_enough (t : Tag) fuel :
  (Z.to_nat (originalSize t / 10) + 2 <= fuel)%nat ->
  Z.min (originalSize t) (Z.of_nat (length (content (file t))) - 9)
  <= tagHeaderSize + 10 * (Z.of_nat fuel - 1).
Proof.
  unfold tagHeaderSize. intros Hfuel.
  pose proof (Z.mul_succ_div_gt (originalSize t) 10 ltac:(lia)).
  destruct (Z_le_gt_dec 0 (originalSize t / 10)).
  - assert (originalSize t / 10 + 2 <= Z.of_nat fuel) by lia. lia.
  - assert (originalSize t < 0)
      by (pose proof (Z.div_pos (originalSize t) 10); lia).
    lia.
Qed.

Lemma tagHeaderSize_int64 : min_int64 <= tagHeaderSize <= max_int64.
Proof. unfold min_int64, max_int64, tagHeaderSize. lia. Qed.

(** [findAllFrames] always comes to an end within its turns. *)
Lemma findAllFrames_total (t : Tag) : is_Some (findAllFrames t).
Proof.
  unfold findAllFrames.
  apply findAllFrames_loop_ends;
    [unfold scanFuel; lia | apply tagHeaderSize_int64 |].
  right. apply scanFuel_enough.
Qed.


(** ** The scan of a well-formed frame region *)

Lemma coordsOf_cons id fr fs :
  coordsOf id (fr :: fs)
  = if decide (frameID fr = id)
    then coordsOfFrame fr :: coordsOf id fs
    else coordsOf id fs.
Proof.
  unfold coordsOf. rewrite filter_cons.
  destruct (decide (frameID fr = id)); reflexivity.
Qed.

Lemma scanned_nil (t : Tag) : scanned t [] t.
Proof.
  unfold scanned. repeat split; try reflexivity.
  symmetry. apply app_nil_r.
Qed.

(** A frame scanned first, then the frames behind it. *)
Lemma scanned_cons (t t1 t' : Tag) h p fs :
  framesCoords t1
  = <[ID h := default [] (framesCoords t !! ID h)
              ++ [{| Len := FrameSize h; Pos := p + 10 |}]]> (framesCoords t) ->
  frames t1 = frames t ->
  content (file t1) = content (file t) ->
  events (file t1) = events (file t) ++ [EvSeek p; EvRead p 10] ->
  originalSize t1 = originalSize t ->
  version t1 = version t ->
  ids t1 = ids t ->
  scanned t1 fs t' ->
  scanned t ({| frameAt := p; frameID := ID h; frameLen := FrameSize h |} :: fs)
          t'.
Proof.
  intros Hcoords Hframes Hcontent Hevents Hsize Hversion Hids
         (Hlookup & Hframes' & Hcontent' & Hevents' & Hsize' & Hversion'
          & Hids').
  unfold scanned. repeat split; try congruence.
  - intros id. rewrite Hlookup, coordsOf_cons, Hcoords. simpl.
    unfold coordsOfFrame at 1. simpl.
    destruct (decide (ID h = id)) as [<- | Hne].
    + rewrite lookup_insert_eq. simpl.
      destruct (coordsOf (ID h) fs) as [| c cs]; [reflexivity |].
      rewrite <- app_assoc. reflexivity.
    + rewrite lookup_insert_ne by exact Hne. reflexivity.
  - rewrite Hevents', Hevents. unfold scanEvents. simpl.
    rewrite <- app_assoc. reflexivity.
Qed.

Lemma frameRegion_scan bs tagSize p fs :
  frameRegion bs tagSize p fs ->
  tagSize + frameHeaderSize + maxSize <= max_int64 ->
  0 <= p ->
  forall t : Tag,
    content (file t) = bs ->
    exists t',
      findAllFrames_loop (S (length fs)) tagSize t p = Some (None, t')
      /\ scanned t fs t'.
Proof.
  unfold frameHeaderSize.
  induction 1 as [p Hend | p h fs Hlt Hh Hrest IH];
    intros Hbound Hp t Hcontent.
  - exists t. split; [| apply scanned_nil].
    simpl. destruct (Z.ltb_spec p tagSize); [lia | reflexivity].
  - pose proof (headerAt_size _ _ _ Hh) as Hsize.
    rewrite <- Hcontent in Hh.
    pose proof (findAllFrames_body_frame t p h Hp Hh) as Hbody.
    destruct (next_cursor p (FrameSize h) ltac:(lia) Hsize)
      as (_ & _ & Hnext).
    rewrite Hnext in Hbody by lia.
    rewrite (wrap64_small (p + 10)) in Hbody
      by (unfold min_int64, max_int64 in *; lia).
    match type of Hbody with
    | _ = (None, ?t1, _) =>
        destruct (IH Hbound ltac:(lia) t1 Hcontent) as (t' & Hloop & Hscan);
        exists t'; split;
        [| eapply (scanned_cons t t1 t'); try reflexivity; exact Hscan]
    end.
    change (findAllFrames_loop (S (length (?x :: fs))) tagSize t p)
      with (if p <? tagSize
            then match findAllFrames_body t p with
                 | (Some err, t', _) => Some (Some err, t')
                 | (None, t', pos') =>
                     findAllFrames_loop (S (length fs)) tagSize t' pos'
                 end
            else Some (None, t)).
    destruct (Z.ltb_spec p tagSize); [| lia].
    rewrite Hbody. exact Hloop.
Qed.

(** The scan started by [findAllFrames] on a tag whose frame region is
    well formed. *)
Lemma findAllFrames_region (t : Tag) fs :
  originalSize t + frameHeaderSize + maxSize <= max_int64 ->
  frameRegion (content (file t)) (originalSize t) tagHeaderSize fs ->
  exists t', findAllFrames t = Some (None, t') /\ scanned t fs t'.
Proof.
  intros Hbound Hregion.
  destruct (frameRegion_scan _ _ _ _ Hregion Hbound
              ltac:(unfold tagHeaderSize; lia) t eq_refl)
    as (t' & Hloop & Hscan).
  exists t'. split; [| exact Hscan].
  destruct (findAllFrames_total t) as [r Hr].
  rewrite Hr. unfold findAllFrames in Hr.
  pose proof (findAllFrames_loop_mono _ _
                (Nat.max (scanFuel t) (S (length fs))) _ _ _ Hr
                ltac:(lia)) as H1.
  pose proof (findAllFrames_loop_mono _ _
                (Nat.max (scanFuel t) (S (length fs))) _ _ _ Hloop
                ltac:(lia)) as H2.
  congruence.
Qed.


(** ** Claims about the structural scan *)

(** C1. For a tag whose header is present (so that its frame region has a
    size [size] in the range of the size codec), [findAllFrames] walks the
    frames [fs] that lie between the first byte behind the container
    header and the tag end. Turn by turn: at a frame header at offset [p]
    the turn records the one entry with the length decoded by the size
    codec and the position [p + 10], appended to the sequence of the
    identifier, seeks to [p] and reads the ten header bytes and nothing
    else, and leaves the cursor at [p + 10 + length]. As a whole: the scan
    ends without error, the index holds for every identifier the
    coordinates of its frames in the order of the disk, and the file has
    been sought and read at the frame headers only, so no payload byte was
    read. *)
Theorem findAllFrames_indexes_frames (f : File) size v fs :
  0 <= size <= maxSize ->
  frameRegion (content f) (tagHeaderSize + size) tagHeaderSize fs ->
  (forall (t0 : Tag) p h,
      0 <= p < tagHeaderSize + size ->
      headerAt (content (file t0)) p = Some h ->
      exists t1,
        findAllFrames_body t0 p = (None, t1, p + 10 + FrameSize h)
        /\ framesCoords t1 !! ID h
           = Some (default [] (framesCoords t0 !! ID h)
                   ++ [{| Len := FrameSize h; Pos := p + 10 |}])
        /\ (forall id, id <> ID h ->
                       framesCoords t1 !! id = framesCoords t0 !! id)
        /\ events (file t1) = events (file t0) ++ [EvSeek p; EvRead p 10])
  /\ exists t',
      findAllFrames (newTag f (tagHeaderSize + size) v) = Some (None, t')
      /\ (forall id,
             framesCoords t' !! id
             = match coordsOf id fs with [] => None | cs => Some cs end)
      /\ events (file t') = events f ++ scanEvents fs
      /\ content (file t') = content f
      /\ frames t' = ∅.
Proof.
  intros Hsize Hregion. split.
  - intros t0 p h Hp Hh.
    pose proof (headerAt_size _ _ _ Hh) as Hfs.
    pose proof (findAllFrames_body_frame t0 p h ltac:(lia) Hh) as Hbody.
    unfold tagHeaderSize, maxSize, max_int64, min_int64 in *.
    destruct (next_cursor p (FrameSize h)
                ltac:(unfold max_int64; lia)
                ltac:(unfold maxSize; lia)) as (_ & _ & Hnext).
    rewrite Hnext in Hbody by (unfold max_int64; lia).
    rewrite (wrap64_small (p + 10)) in Hbody
      by (unfold min_int64, max_int64; lia).
    eexists. split; [exact Hbody |]. simpl.
    split; [apply lookup_insert_eq |].
    split; [| reflexivity].
    intros id Hne. apply lookup_insert_ne. congruence.
  - destruct (findAllFrames_region (newTag f (tagHeaderSize + size) v) fs)
      as (t' & Hfind & Hlookup & Hframes & Hcontent & Hevents & _).
    + simpl. unfold tagHeaderSize, frameHeaderSize, maxSize, max_int64 in *.
      lia.
    + exact Hregion.
    + exists t'. split; [exact Hfind |].
      split; [| auto].
      intros id. rewrite Hlookup. simpl. rewrite lookup_empty.
      destruct (coordsOf id fs); reflexivity.
Qed.

(** ** The turns of the loop *)

(** A run of the loop is a function of the tag and the cursor it is
    entered with. *)
Lemma scanRun_fun tagSize (t : Tag) p turns1 e1 t1 q1 turns2 e2 t2 q2 :
  scanRun tagSize t p turns1 e1 t1 q1 ->
  scanRun tagSize t p turns2 e2 t2 q2 ->
  turns1 = turns2 /\ e1 = e2 /\ t1 = t2 /\ q1 = q2.
Proof.
  intros Hrun1. revert turns2 e2 t2 q2.
  induction Hrun1 as [t p Hend | t p err t' p' Hlt Hbody
                      | t p ta pa turns e t' p' Hlt Hbody Hrest IH];
    intros turns2 e2 t2 q2 Hrun2; inversion Hrun2; subst;
    try lia; try congruence.
  - auto.
  - match goal with
    | H : findAllFrames_body t p = (Some _, _, _) |- _ =>
        rewrite Hbody in H; injection H as <- <- <-
    end.
    auto.
  - match goal with
    | H : findAllFrames_body t p = (None, _, _) |- _ =>
        rewrite Hbody in H; injection H as <- <-
    end.
    match goal with
    | H : scanRun tagSize ta pa _ _ _ _ |- _ =>
        destruct (IH _ _ _ _ H) as (-> & -> & -> & ->)
    end.
    auto.
Qed.

(** The first cursor of a run is the one the loop was entered with. *)
Lemma scanRun_first tagSize (t : Tag) p turns e t' p' :
  scanRun tagSize t p turns e t' p' ->
  exists rest, turns ++ [p'] = p :: rest.
Proof.
  intros Hrun. destruct Hrun; simpl; eauto.
Qed.

(** A turn entered below zero fails in its seek. *)
Lemma findAllFrames_body_negative (t : Tag) p :
  p < 0 -> exists err t' p', findAllFrames_body t p = (Some err, t', p').
Proof.
  intros Hp. unfold findAllFrames_body, Seek.
  destruct (Z.ltb_spec p 0); [| lia]. eauto.
Qed.

(** What the loop function returns is the outcome of a run of the loop,
    of no more turns than the function was given. A run that ends without
    an error ends by the test, at a cursor at or behind the tag end, and
    each of its cursors lies behind the frame at the cursor before it. *)
Lemma findAllFrames_loop_run tagSize n (t t' : Tag) p e :
  min_int64 <= p <= max_int64 ->
  findAllFrames_loop n tagSize t p = Some (e, t') ->
  exists turns p',
    scanRun tagSize t p turns e t' p'
    /\ (length turns <= n)%nat
    /\ (e = None ->
        tagSize <= p'
        /\ Sorted (advance (content (file t))) (turns ++ [p'])).
Proof.
  revert t p. induction n as [| n IH]; intros t p Hp Hloop; [discriminate |].
  simpl in Hloop. destruct (Z.ltb_spec p tagSize) as [Hlt | Hge].
  - destruct (findAllFrames_body t p) as [[[err |] t1] p1] eqn:Hbody.
    + injection Hloop as <- <-. exists [p], p1.
      split; [eapply scanRun_error; eassumption |].
      split; [simpl; lia | discriminate].
    + destruct (findAllFrames_body_goes_on t t1 p p1 Hbody)
        as (Hp0 & h & Hh & Hp1 & Hcontent).
      pose proof (headerAt_size _ _ _ Hh) as Hsize.
      destruct (next_cursor p (FrameSize h) ltac:(lia) Hsize)
        as (Hrange & Hnext & _).
      rewrite <- Hp1 in Hrange, Hnext.
      destruct (IH t1 p1 Hrange Hloop) as (turns & p' & Hrun & Hlen & Hnone).
      exists (p :: turns), p'.
      split; [eapply scanRun_turn; eassumption |].
      split; [simpl; lia |].
      intros ->. destruct (Hnone eq_refl) as (Hend & Hsorted).
      split; [exact Hend |].
      destruct Hnext as [Hneg | Hp1'].
      * exfalso. destruct n as [| n]; [discriminate |].
        simpl in Hloop. destruct (Z.ltb_spec p1 tagSize); [| lia].
        destruct (findAllFrames_body_negative t1 p1 Hneg)
          as (err & t2 & p2 & Hfail).
        rewrite Hfail in Hloop. discriminate.
      * rewrite Hcontent in Hsorted.
        destruct (scanRun_first _ _ _ _ _ _ _ Hrun) as (rest & Hfirst).
        simpl. constructor; [exact Hsorted |].
        rewrite Hfirst. constructor.
        exists h. unfold frameHeaderSize. split; [exact Hh |]. lia.
  - injection Hloop as <- <-. exists [], p.
    split; [apply scanRun_end; exact Hge |].
    split; [simpl; lia |].
    intros _. split; [exact Hge |]. simpl. repeat constructor.
Qed.

(** The run of the loop over a well-formed frame region: one turn at each
    frame header, and none failing. *)
Lemma frameRegion_run bs tagSize p fs :
  frameRegion bs tagSize p fs ->
  tagSize + frameHeaderSize + maxSize <= max_int64 ->
  0 <= p ->
  forall t : Tag,
    content (file t) = bs ->
    exists t' p', scanRun tagSize t p (frameAt <$> fs) None t' p'.
Proof.
  unfold frameHeaderSize.
  induction 1 as [p Hend | p h fs Hlt Hh Hrest IH];
    intros Hbound Hp t Hcontent.
  - exists t, p. apply scanRun_end. exact Hend.
  - pose proof (headerAt_size _ _ _ Hh) as Hsize.
    rewrite <- Hcontent in Hh.
    pose proof (findAllFrames_body_frame t p h Hp Hh) as Hbody.
    destruct (next_cursor p (FrameSize h) ltac:(lia) Hsize)
      as (_ & _ & Hnext).
    rewrite Hnext in Hbody by lia.
    match type of Hbody with
    | _ = (None, ?t1, _) =>
        destruct (IH Hbound ltac:(lia) t1 Hcontent) as (t' & p' & Hrun)
    end.
    exists t', p'. rewrite fmap_cons. simpl.
    eapply scanRun_turn; [exact Hlt | exact Hbody | exact Hrun].
Qed.

(** C10. [findAllFrames] terminates on every tag, whatever its size and
    whatever the byte source holds. What it returns is the outcome of a
    run of its loop of finitely many turns, [originalSize / 10 + 2] at
    most, and the loop function gives that result for every number of
    turns from that bound on. When no seek and no header read failed, the
    run was left by the test of the loop, with the cursor at or behind the
    tag end (the loop has no other run from that state), and the cursors
    of the run, from the first to the one it was
    left with, step from each frame header to the byte behind the frame:
    the cursor before plus the 10 bytes of the frame header plus the
    decoded frame size, which is not negative, so at least 10 bytes
    further at every turn. Of any turn that goes on, in whatever state:
    it has decoded a frame size that is not negative and leaves the cursor
    at the old cursor plus 10 plus that size, as long as the sum fits an
    [int64]. *)
Theorem findAllFrames_terminates (t : Tag) :
  (exists turns e t' pos',
      findAllFrames t = Some (e, t')
      /\ scanRun (originalSize t) t tagHeaderSize turns e t' pos'
      /\ (length turns <= Z.to_nat (originalSize t / 10) + 2)%nat
      /\ (e = None ->
          originalSize t <= pos'
          /\ Sorted (advance (content (file t))) (turns ++ [pos'])
          /\ Sorted (fun p q => p + 10 <= q) (turns ++ [pos']))
      /\ (forall turns2 e2 t2 pos2,
             scanRun (originalSize t) t tagHeaderSize turns2 e2 t2 pos2 ->
             turns2 = turns /\ e2 = e /\ t2 = t' /\ pos2 = pos')
      /\ forall fuel,
          (Z.to_nat (originalSize t / 10) + 2 <= fuel)%nat ->
          findAllFrames_loop fuel (originalSize t) t tagHeaderSize
          = Some (e, t'))
  /\ (forall (t0 t1 : Tag) pos pos',
         findAllFrames_body t0 pos = (None, t1, pos') ->
         exists header,
           headerAt (content (file t0)) pos = Some header
           /\ 0 <= FrameSize header
           /\ (pos + frameHeaderSize + FrameSize header <= max_int64 ->
               pos' = pos + frameHeaderSize + FrameSize header
               /\ pos + 10 <= pos')).
Proof.
  split.
  - destruct (findAllFrames_total t) as [[e t'] Hr].
    assert (forall fuel,
               (Z.to_nat (originalSize t / 10) + 2 <= fuel)%nat ->
               findAllFrames_loop fuel (originalSize t) t tagHeaderSize
               = Some (e, t')) as Hfuel.
    { intros fuel Hfuel.
      destruct (findAllFrames_loop_ends (originalSize t) fuel t tagHeaderSize
                  ltac:(lia) tagHeaderSize_int64
                  (or_intror (tagSizeFuel_enough t fuel Hfuel))) as [r' Hr'].
      rewrite Hr'. unfold findAllFrames in Hr.
      pose proof (findAllFrames_loop_mono _ _ (Nat.max (scanFuel t) fuel)
                    _ _ _ Hr ltac:(lia)) as H1.
      pose proof (findAllFrames_loop_mono _ _ (Nat.max (scanFuel t) fuel)
                    _ _ _ Hr' ltac:(lia)) as H2.
      congruence. }
    destruct (findAllFrames_loop_run (originalSize t)
                (Z.to_nat (originalSize t / 10) + 2) t t' tagHeaderSize e
                tagHeaderSize_int64
                (Hfuel (Z.to_nat (originalSize t / 10) + 2)%nat ltac:(lia)))
      as (turns & pos' & Hrun & Hlen & Hnone).
    exists turns, e, t', pos'. split; [exact Hr |].
    split; [exact Hrun |]. split; [exact Hlen |].
    split; [| split; [| exact Hfuel]].
    2: { intros turns2 e2 t2 pos2 Hrun2.
         destruct (scanRun_fun _ _ _ _ _ _ _ _ _ _ _ Hrun2 Hrun)
           as (-> & -> & -> & ->).
         auto. }
    intros He. destruct (Hnone He) as (Hend & Hsorted).
    split; [exact Hend |]. split; [exact Hsorted |].
    clear -Hsorted. induction Hsorted as [| p l Hl IH Hhd]; constructor.
    + exact IH.
    + destruct Hhd as [| q l (h & _ & Hsize & ->)]; constructor.
      unfold frameHeaderSize. lia.
  - intros t0 t1 pos pos' Hbody.
    destruct (findAllFrames_body_goes_on t0 t1 pos pos' Hbody)
      as (Hp0 & h & Hh & -> & _).
    pose proof (headerAt_size _ _ _ Hh) as Hsize.
    exists h. split; [exact Hh |]. split; [lia |].
    unfold frameHeaderSize. intros Hfit.
    destruct (next_cursor pos (FrameSize h) ltac:(lia) Hsize)
      as (_ & _ & Hnext).
    rewrite Hnext by lia. lia.
Qed.


(** The scan changes the index and the file, and nothing else of the
    tag; the bytes of the file stay. *)
Lemma findAllFrames_loop_keeps tagSize n (t t' : Tag) p e :
  findAllFrames_loop n tagSize t p = Some (e, t') ->
  frames t' = frames t /\ version t' = version t /\ ids t' = ids t
  /\ originalSize t' = originalSize t
  /\ content (file t') = content (file t).
Proof.
  revert t p. induction n as [| n IH]; intros t p Hloop; [discriminate |].
  simpl in Hloop. destruct (p <? tagSize).
  - destruct (findAllFrames_body t p) as [[err t1] p1] eqn:Hbody.
    pose proof (findAllFrames_body_content _ _ _ _ _ Hbody) as Hcontent.
    assert (frames t1 = frames t /\ version t1 = version t
            /\ ids t1 = ids t /\ originalSize t1 = originalSize t)
      as (Hf & Hv & Hi & Ho).
    { unfold findAllFrames_body in Hbody.
      destruct (Seek (file t) p) as [[?|] ?];
        [injection Hbody as <- <- <-; auto |].
      destruct (parseFrameHeader _) as [[?|?] ?];
        injection Hbody as <- <- <-; auto. }
    destruct err as [err |].
    + injection Hloop as <- <-. auto.
    + destruct (IH _ _ Hloop) as (? & ? & ? & ? & ?).
      repeat split; congruence.
  - injection Hloop as <- <-. auto.
Qed.

(** ** The container header *)

Lemma ReadFrom_header f :
  0 <= offset f ->
  exists l',
    ReadFrom {| R := f; N := 10 |} = (take 10 (remaining f), l')
    /\ content (R l') = content f
    /\ (length (take 10 (remaining f)) = 10%nat ->
        events (R l') = events f ++ [EvRead (offset f) 10]).
Proof.
  intros Hoff.
  destruct (decide (length (take 10 (remaining f)) = 10%nat))
    as [Hten | Hshort].
  - rewrite (ReadFrom_full f Hten). eexists. repeat split.
  - destruct (ReadFrom_short f Hoff) as (l' & Hread & Hcontent).
    { pose proof (length_take_le (remaining f) 10).
      rewrite length_take in *. lia. }
    exists l'. split; [exact Hread |]. split; [exact Hcontent |].
    intros Hten. contradiction.
Qed.

(** A header that is present took exactly its ten bytes from the source,
    and its size is in the range of the size codec. *)
Lemma parseHeader_present f h f' :
  0 <= offset f ->
  parseHeader f = (Ok (Some h), f') ->
  content f' = content f
  /\ events f' = events f ++ [EvRead (offset f) 10]
  /\ 0 <= FramesSize h <= maxSize.
Proof.
  intros Hoff. unfold parseHeader. change tagHeaderSize with 10.
  destruct (ReadFrom_header f Hoff) as (l' & -> & Hcontent & Hevents).
  destruct (negb _); [discriminate |].
  destruct (Z.ltb_spec (Z.of_nat (length (take 10 (remaining f)))) 10)
    as [| Hlen]; [discriminate |].
  intros [= <- <-]. simpl.
  split; [exact Hcontent |].
  split; [apply Hevents; rewrite length_take in *; lia |].
  apply ParseSize_range. rewrite length_take. lia.
Qed.

Lemma parseHeader_absent f :
  0 <= offset f ->
  take 3 (remaining f) <> id3Identifier ->
  exists f', parseHeader f = (Ok None, f') /\ content f' = content f.
Proof.
  intros Hoff Hmagic. unfold parseHeader. change tagHeaderSize with 10.
  destruct (ReadFrom_header f Hoff) as (l' & -> & Hcontent & _).
  rewrite take_take. change (3 `min` 10)%nat with 3%nat.
  rewrite bool_decide_eq_false_2 by exact Hmagic. simpl.
  exists (R l'). split; [reflexivity | exact Hcontent].
Qed.

(** ** Claims about [parseTag] *)

(** C3, as amended. [parseTag] checks the major version of a parsed
    header (read from a source whose position is not negative, as that of
    a file handle is) against the minimum only. A version below 3 fails
    with the unsupported-version error, returns no tag and leaves the file
    as the header read left it: no frame was sought or read. Every version
    from 3 on, those above 4 included, goes on to the scan of a tag of
    that version, with the identifier table of version 3 for version 3
    and that of version 4 for every other. *)
Theorem parseTag_checks_minimum_version (f : File) h f' :
  0 <= offset f ->
  parseHeader f = (Ok (Some h), f') ->
  ((Byte.to_N (Version h) < 3)%N ->
   parseTag (Some f)
   = Some (None, Some "Unsupported version of ID3 tag"%string, Some f')
   /\ events f' = events f ++ [EvRead (offset f) 10])
  /\ ((3 <= Byte.to_N (Version h))%N ->
      exists e t',
        findAllFrames (newTag f' (tagHeaderSize + FramesSize h) (Version h))
        = Some (e, t')
        /\ parseTag (Some f) = Some (Some t', e, Some (file t'))
        /\ version t' = Version h
        /\ ids t' = if bool_decide (Version h = x03)
                    then V23IDs else V24IDs).
Proof.
  intros Hoff Hheader.
  destruct (parseHeader_present f h f' Hoff Hheader)
    as (_ & Hevents & Hsize).
  split; intros Hv; unfold parseTag; rewrite Hheader.
  - destruct (N.ltb_spec (Byte.to_N (Version h)) 3); [| lia].
    split; [reflexivity | exact Hevents].
  - destruct (N.ltb_spec (Byte.to_N (Version h)) 3); [lia |].
    rewrite wrap64_small
      by (unfold tagHeaderSize, maxSize, min_int64, max_int64 in *; lia).
    destruct (findAllFrames_total
                (newTag f' (tagHeaderSize + FramesSize h) (Version h)))
      as [[e t'] Hfind].
    exists e, t'. rewrite Hfind. split; [reflexivity |].
    split; [reflexivity |].
    unfold findAllFrames in Hfind.
    destruct (findAllFrames_loop_keeps _ _ _ _ _ _ Hfind)
      as (_ & Hver & Hids & _).
    split; [exact Hver | exact Hids].
Qed.

(** C5. A byte source whose leading bytes (those in front of its read
    position, which is not negative) are not the 3-byte magic identifier
    parses without error to the empty tag of version 4: no frame is
    indexed and none is decoded. *)
Theorem parseTag_without_header (f : File) :
  0 <= offset f ->
  take 3 (remaining f) <> id3Identifier ->
  exists t f',
    parseTag (Some f) = Some (Some t, None, Some f')
    /\ t = newTag f' 0 x04
    /\ framesCoords t = ∅
    /\ frames t = ∅
    /\ content f' = content f.
Proof.
  intros Hoff Hmagic.
  destruct (parseHeader_absent f Hoff Hmagic) as (f' & Hheader & Hcontent).
  exists (newTag f' 0 x04), f'. unfold parseTag. rewrite Hheader.
  repeat split. exact Hcontent.
Qed.


(** ** Reading one frame *)

Lemma readFrame_content (pf : ParseFunc Framer) rs fc :
  content (readFrame pf rs fc).2 = content rs.
Proof.
  unfold readFrame.
  destruct (Seek rs (Pos fc)) as [err rs1] eqn:Hseek.
  assert (content rs1 = content rs) as <-.
  { unfold Seek in Hseek. destruct (Pos fc <? 0);
      injection Hseek as <- <-; reflexivity. }
  pose proof (runParseFunc_content pf {| R := rs1; N := Len fc |}) as Hc.
  destruct (runParseFunc pf _) as [fr rd']. exact Hc.
Qed.

(** The decoder of a frame is run on the payload that the coordinates
    delimit, and reads the file inside that range only. *)
Lemma readFrame_window (pf : ParseFunc Framer) rs fc :
  0 <= Pos fc ->
  exists evs rs',
    readFrame pf rs fc = (decode pf (payload (content rs) fc), rs')
    /\ content rs' = content rs
    /\ events rs' = events rs ++ EvSeek (Pos fc) :: evs
    /\ Forall (readWithin fc) evs.
Proof.
  intros Hpos.
  pose proof (readFrame_content pf rs fc) as Hcontent.
  unfold readFrame, Seek in *. destruct (Z.ltb_spec (Pos fc) 0); [lia |].
  set (rd := {| R := {| content := content rs; offset := Pos fc;
                        events := events rs ++ [EvSeek (Pos fc)] |};
                N := Len fc |}) in *.
  destruct (runParseFunc_window pf rd Hpos) as (evs & Hres & Hevents & Hin).
  destruct (runParseFunc pf rd) as [fr rd']. simpl in *.
  exists evs, (R rd'). subst fr.
  split; [reflexivity |]. split; [exact Hcontent |].
  split; [| destruct fc; exact Hin].
  rewrite Hevents, <- app_assoc. reflexivity.
Qed.

(** ** Reading the frames of one identifier *)

Lemma readFrames_keeps (pf : ParseFunc Framer) id fcs (t t' : Tag) e :
  readFrames pf id fcs t = (e, t') ->
  framesCoords t' = framesCoords t
  /\ ids t' = ids t
  /\ content (file t') = content (file t)
  /\ (forall id', id' <> id -> frames t' !! id' = frames t !! id').
Proof.
  revert t. induction fcs as [| fc fcs IH]; intros t Hread; simpl in Hread.
  - injection Hread as <- <-. auto.
  - pose proof (readFrame_content pf (file t) fc) as Hcontent.
    destruct (readFrame pf (file t) fc) as [[fr | err] f'].
    + destruct (IH _ Hread) as (Hcoords & Hids & Hc & Hframes).
      repeat split; try assumption.
      * rewrite Hc. exact Hcontent.
      * intros id' Hne. rewrite (Hframes id' Hne). simpl.
        apply lookup_insert_ne. congruence.
    + injection Hread as <- <-. auto.
Qed.

(** The frames decoded so far are appended to the store, in order. *)
Lemma readFrames_decoded (pf : ParseFunc Framer) id pre rest vs (t : Tag) :
  Forall (fun fc => 0 <= Pos fc) pre ->
  Forall2 (fun fc v => decode pf (payload (content (file t)) fc) = Ok v)
          pre vs ->
  exists t1,
    readFrames pf id (pre ++ rest) t = readFrames pf id rest t1
    /\ content (file t1) = content (file t)
    /\ framesCoords t1 = framesCoords t
    /\ frames t1 !! id
       = match vs with
         | [] => frames t !! id
         | _ => Some (default [] (frames t !! id) ++ vs)
         end.
Proof.
  intros Hpos Hdec. revert t Hpos Hdec.
  generalize dependent vs.
  induction pre as [| fc pre IH]; intros vs t Hpos Hdec.
  - apply Forall2_nil_inv_l in Hdec as ->. exists t. auto.
  - apply Forall2_cons_inv_l in Hdec as (v & vs' & Hv & Hdec & ->).
    apply Forall_cons in Hpos as [Hfc Hpos].
    destruct (readFrame_window pf (file t) fc Hfc)
      as (evs & f' & Hread & Hcontent & _).
    simpl. rewrite Hread, Hv.
    destruct (IH vs' (AddFrame (withFile t f') id v) Hpos)
      as (t1 & Hrest & Hc1 & Hcoords1 & Hframes1).
    { simpl. rewrite Hcontent. exact Hdec. }
    exists t1. split; [exact Hrest |].
    split; [simpl in Hc1; congruence |].
    split; [exact Hcoords1 |].
    rewrite Hframes1. simpl. rewrite lookup_insert_eq. simpl.
    destruct vs' as [| v' vs']; [reflexivity |].
    rewrite <- app_assoc. reflexivity.
Qed.

(** ** Resolving an identifier *)

(** Decoder selection looks at the identifier table of the tag only. *)
Lemma findParseFunc_ids (t t' : Tag) id :
  ids t' = ids t -> findParseFunc t' id = findParseFunc t id.
Proof.
  intros Hids. unfold findParseFunc, Tag_ID. rewrite Hids. reflexivity.
Qed.

Lemma resolve_keeps (t t' : Tag) id e :
  parseFramesCoordsWithID t id = (e, t') ->
  ids t' = ids t
  /\ content (file t') = content (file t)
  /\ (forall id', id' <> id -> frames t' !! id' = frames t !! id').
Proof.
  unfold parseFramesCoordsWithID.
  destruct (framesCoords t !! id) as [fcs |];
    [| intros [= <- <-]; auto].
  destruct (findParseFunc t id) as [[pf |] | err];
    [| intros [= <- <-]; auto | intros [= <- <-]; auto].
  destruct (readFrames pf id fcs t) as [[err |] t1] eqn:Hread;
    destruct (readFrames_keeps _ _ _ _ _ _ Hread) as (_ & ? & ? & ?);
    intros [= <- <-]; auto.
Qed.

(** A resolve that returns has deleted the identifier from the index,
    and nothing else. *)
Lemma resolve_done (t t' : Tag) id :
  parseFramesCoordsWithID t id = (None, t') ->
  framesCoords t' = delete id (framesCoords t).
Proof.
  unfold parseFramesCoordsWithID.
  destruct (framesCoords t !! id) as [fcs |] eqn:Hfcs.
  - destruct (findParseFunc t id) as [[pf |] | err];
      [| intros [= <-]; reflexivity | discriminate].
    destruct (readFrames pf id fcs t) as [[err |] t1] eqn:Hread;
      [discriminate |].
    destruct (readFrames_keeps _ _ _ _ _ _ Hread) as (Hcoords & _).
    intros [= <-]. simpl. rewrite Hcoords. reflexivity.
  - intros [= <-]. symmetry. apply delete_id. exact Hfcs.
Qed.

(** Without a decoder the store is left alone. *)
Lemma resolve_undecodable (t t' : Tag) id e :
  findParseFunc t id = Ok None ->
  parseFramesCoordsWithID t id = (e, t') ->
  e = None /\ frames t' = frames t /\ file t' = file t.
Proof.
  intros Hnone. unfold parseFramesCoordsWithID. rewrite Hnone.
  destruct (framesCoords t !! id); intros [= <- <-]; auto.
Qed.

Lemma resolve_pending_or_resolved (t t' : Tag) id :
  pendingOrResolved t ->
  parseFramesCoordsWithID t id = (None, t') ->
  pendingOrResolved t'.
Proof.
  intros Hinv Hres id' Hpending.
  rewrite (resolve_done _ _ _ Hres) in Hpending.
  destruct (decide (id' = id)) as [-> | Hne].
  - rewrite lookup_delete_eq in Hpending. destruct Hpending; discriminate.
  - rewrite lookup_delete_ne in Hpending by congruence.
    destruct (resolve_keeps _ _ _ _ Hres) as (_ & _ & Hframes).
    rewrite (Hframes id' Hne). apply Hinv. exact Hpending.
Qed.

(** ** Resolving a run of identifiers *)

Lemma inOrder_done order (t t' : Tag) :
  parseFramesCoordsInOrder order t = (None, t') ->
  forall id,
    framesCoords t' !! id
    = if decide (id ∈ order) then None else framesCoords t !! id.
Proof.
  revert t. induction order as [| id0 order IH]; intros t Hrun id;
    simpl in Hrun.
  - injection Hrun as <-. rewrite decide_False; [reflexivity |].
    apply not_elem_of_nil.
  - destruct (parseFramesCoordsWithID t id0) as [[err |] t1] eqn:Hres;
      [discriminate |].
    rewrite (IH _ Hrun id), (resolve_done _ _ _ Hres).
    destruct (decide (id ∈ order)) as [Hin | Hout].
    + rewrite decide_True; [reflexivity | right; exact Hin].
    + destruct (decide (id = id0)) as [-> | Hne].
      * rewrite lookup_delete_eq, decide_True; [reflexivity | left].
      * rewrite lookup_delete_ne by congruence.
        rewrite decide_False; [reflexivity |].
        intros Hin. apply elem_of_cons in Hin as [? | ?]; tauto.
Qed.

Lemma inOrder_pending_or_resolved order (t t' : Tag) :
  pendingOrResolved t ->
  parseFramesCoordsInOrder order t = (None, t') ->
  pendingOrResolved t'.
Proof.
  revert t. induction order as [| id0 order IH]; intros t Hinv Hrun;
    simpl in Hrun.
  - injection Hrun as <-. exact Hinv.
  - destruct (parseFramesCoordsWithID t id0) as [[err |] t1] eqn:Hres;
      [discriminate |].
    eapply IH; [| exact Hrun].
    eapply resolve_pending_or_resolved; eauto.
Qed.

(** A run over all pending identifiers that returns leaves none. *)
Lemma inOrder_all order (t t' : Tag) :
  parseFramesCoordsInOrder order t = (None, t') ->
  (forall id, is_Some (framesCoords t !! id) -> id ∈ order) ->
  framesCoords t' = ∅.
Proof.
  intros Hrun Hall. apply map_empty. intros id.
  rewrite (inOrder_done _ _ _ Hrun id).
  destruct (decide (id ∈ order)) as [| Hout]; [reflexivity |].
  destruct (framesCoords t !! id) as [fcs |] eqn:Hfcs; [| reflexivity].
  destruct Hout. apply Hall. rewrite Hfcs. eauto.
Qed.

(** An identifier without a decoder never gets into the store. *)
Lemma inOrder_undecodable order (t t' : Tag) id e :
  findParseFunc t id = Ok None ->
  parseFramesCoordsInOrder order t = (e, t') ->
  frames t' !! id = frames t !! id.
Proof.
  revert t. induction order as [| id0 order IH]; intros t Hnone Hrun;
    simpl in Hrun.
  - injection Hrun as <- <-. reflexivity.
  - destruct (parseFramesCoordsWithID t id0) as [err t1] eqn:Hres.
    destruct (resolve_keeps _ _ _ _ Hres) as (Hids & _ & Hframes).
    assert (frames t1 !! id = frames t !! id) as Hstep.
    { destruct (decide (id = id0)) as [-> | Hne]; [| auto].
      destruct (resolve_undecodable _ _ _ _ Hnone Hres) as (_ & -> & _).
      reflexivity. }
    destruct err as [err |].
    + injection Hrun as <- <-. exact Hstep.
    + rewrite <- Hstep. apply IH; [| exact Hrun].
      rewrite (findParseFunc_ids t t1 id Hids). exact Hnone.
Qed.


(** ** Claims about lazy decoding *)

(** C6. A resolve of an identifier that returns has removed the
    identifier from the pending index, and a repeated resolve of the same
    identifier, once or any number of times, returns the very same tag:
    the same store, and a file on which no further seek or read was
    made. *)
Theorem parseFramesCoordsWithID_idempotent (t t' : Tag) id :
  parseFramesCoordsWithID t id = (None, t') ->
  framesCoords t' !! id = None
  /\ parseFramesCoordsWithID t' id = (None, t')
  /\ forall n, parseFramesCoordsInOrder (replicate n id) t' = (None, t').
Proof.
  intros Hres.
  assert (framesCoords t' !! id = None) as Hgone.
  { rewrite (resolve_done _ _ _ Hres). apply lookup_delete_eq. }
  assert (parseFramesCoordsWithID t' id = (None, t')) as Hagain.
  { unfold parseFramesCoordsWithID. rewrite Hgone. reflexivity. }
  split; [exact Hgone |]. split; [exact Hagain |].
  induction n as [| n IH]; simpl; [reflexivity |].
  rewrite Hagain. exact IH.
Qed.

(** C7. Every identifier that the scan indexes has four bytes, hence a
    first character (on the empty identifier [id[0]] would fault). The
    decoder of an identifier depends on the identifier and on
    the identifier table of the tag alone. An identifier that starts with
    the letter T gets the text decoder. Of the others, the identifier of
    the picture, comment or lyrics frame in the table gets the decoder of
    that kind, the three being distinct. Any other identifier gets no
    decoder: resolving it runs no decoder and raises no error, leaves the
    store and the file untouched and deletes the identifier from the
    index, and no later resolve ever puts it into the store. *)
Theorem findParseFunc_dispatch (t : Tag) c rest :
  let id := String c rest in
  let picture := Tag_ID t "Attached picture" in
  let comment := Tag_ID t "Comments" in
  let lyrics := Tag_ID t "Unsynchronised lyrics/text transcription" in
  (forall bs p h, headerAt bs p = Some h ->
                  exists c0 rest0, ID h = String c0 rest0)
  /\ (forall t' : Tag, ids t' = ids t ->
                       findParseFunc t' id = findParseFunc t id)
  /\ (c = "T"%char -> findParseFunc t id = Ok (Some parseTextFrame))
  /\ (c <> "T"%char -> NoDup [picture; comment; lyrics] ->
      (id = picture -> findParseFunc t id = Ok (Some parsePictureFrame))
      /\ (id = comment -> findParseFunc t id = Ok (Some parseCommentFrame))
      /\ (id = lyrics ->
          findParseFunc t id = Ok (Some parseUnsynchronisedLyricsFrame)))
  /\ (c <> "T"%char -> id ∉ [picture; comment; lyrics] ->
      findParseFunc t id = Ok None
      /\ (forall fcs, framesCoords t !! id = Some fcs ->
                      parseFramesCoordsWithID t id
                      = (None,
                         withFramesCoords t (delete id (framesCoords t))))
      /\ (forall order e t',
             parseFramesCoordsInOrder order t = (e, t') ->
             frames t' !! id = frames t !! id)
      /\ (forall order t',
             parseFramesCoordsInOrder (id :: order) t = (None, t') ->
             framesCoords t' !! id = None)).
Proof.
  intros id picture comment lyrics.
  split; [intros bs p h Hh; eapply headerAt_ID; exact Hh |].
  split; [intros t' Hids; apply findParseFunc_ids; exact Hids |].
  split; [intros ->; reflexivity |].
  assert (c <> "T"%char ->
          findParseFunc t id
          = if String.eqb id picture then Ok (Some parsePictureFrame)
            else if String.eqb id comment then Ok (Some parseCommentFrame)
            else if String.eqb id lyrics
                 then Ok (Some parseUnsynchronisedLyricsFrame)
                 else Ok None) as Hswitch.
  { intros Hc. unfold findParseFunc, id.
    apply Ascii.eqb_neq in Hc. rewrite Hc. reflexivity. }
  split.
  - intros Hc Hdistinct. rewrite (Hswitch Hc).
    apply NoDup_cons in Hdistinct as [Hpic Hdistinct].
    apply NoDup_cons in Hdistinct as [Hcom _].
    apply not_elem_of_cons in Hpic as [Hpc Hpic].
    apply not_elem_of_cons in Hpic as [Hpl _].
    apply not_elem_of_cons in Hcom as [Hcl _].
    split; [| split]; intros Hid.
    + rewrite (proj2 (String.eqb_eq _ _) Hid). reflexivity.
    + rewrite (proj2 (String.eqb_neq id picture)) by congruence.
      rewrite (proj2 (String.eqb_eq _ _) Hid). reflexivity.
    + rewrite (proj2 (String.eqb_neq id picture)) by congruence.
      rewrite (proj2 (String.eqb_neq id comment)) by congruence.
      rewrite (proj2 (String.eqb_eq _ _) Hid). reflexivity.
  - intros Hc Hother.
    apply not_elem_of_cons in Hother as [Hp Hother].
    apply not_elem_of_cons in Hother as [Hm Hother].
    apply not_elem_of_cons in Hother as [Hl _].
    assert (findParseFunc t id = Ok None) as Hnone.
    { rewrite (Hswitch Hc).
      rewrite (proj2 (String.eqb_neq id picture)) by exact Hp.
      rewrite (proj2 (String.eqb_neq id comment)) by exact Hm.
      rewrite (proj2 (String.eqb_neq id lyrics)) by exact Hl.
      reflexivity. }
    split; [exact Hnone |]. split; [| split].
    + intros fcs Hfcs. unfold parseFramesCoordsWithID.
      rewrite Hfcs, Hnone. reflexivity.
    + intros order e t' Hrun.
      eapply inOrder_undecodable; [exact Hnone | exact Hrun].
    + intros order t' Hrun.
      rewrite (inOrder_done _ _ _ Hrun id).
      rewrite decide_True; [reflexivity | left].
Qed.


(** C8. When a coordinate pair is materialised, the decoder works on a
    reader limited to the recorded length: what it returns is what it
    returns on the recorded payload range, and every read it causes on
    the file lies inside that range. When the decoder of an occurrence
    returns an error, the resolve panics with that error: the store holds
    under the identifier the values of the occurrences decoded before and
    nothing for the failing occurrence or the ones behind it, and the
    rest of the store is as it was. *)
Theorem readFrame_is_bounded_and_fatal (t : Tag) id pf pre fc post vs :
  framesCoords t !! id = Some (pre ++ fc :: post) ->
  findParseFunc t id = Ok (Some pf) ->
  Forall (fun c => 0 <= Pos c) (pre ++ [fc]) ->
  Forall2 (fun c v => decode pf (payload (content (file t)) c) = Ok v)
          pre vs ->
  (forall rs,
      exists evs rs',
        readFrame pf rs fc = (decode pf (payload (content rs) fc), rs')
        /\ content rs' = content rs
        /\ events rs' = events rs ++ EvSeek (Pos fc) :: evs
        /\ Forall (readWithin fc) evs)
  /\ (forall err,
         decode pf (payload (content (file t)) fc) = Err err ->
         exists t',
           parseFramesCoordsWithID t id = (Some err, t')
           /\ frames t' !! id
              = match vs with
                | [] => frames t !! id
                | _ => Some (default [] (frames t !! id) ++ vs)
                end
           /\ (forall id', id' <> id -> frames t' !! id' = frames t !! id')).
Proof.
  intros Hfcs Hpf Hpos Hdec.
  apply Forall_app in Hpos as [Hpre Hfc].
  apply Forall_cons in Hfc as [Hfc _].
  split; [intros rs; apply readFrame_window; exact Hfc |].
  intros err Herr.
  destruct (readFrames_decoded pf id pre (fc :: post) vs t Hpre Hdec)
    as (t1 & Hread & Hcontent & _ & Hframes).
  destruct (readFrame_window pf (file t1) fc Hfc)
    as (evs & f' & Hframe & _).
  rewrite Hcontent, Herr in Hframe.
  assert (readFrames pf id (pre ++ fc :: post) t = (Some err, withFile t1 f'))
    as Hrun.
  { rewrite Hread. simpl. rewrite Hframe. reflexivity. }
  exists (withFile t1 f').
  unfold parseFramesCoordsWithID. rewrite Hfcs, Hpf, Hrun.
  split; [reflexivity |]. split; [exact Hframes |].
  destruct (readFrames_keeps _ _ _ _ _ _ Hrun) as (_ & _ & _ & Hother).
  exact Hother.
Qed.

(** C9. No identifier is at once pending in the coordinate index and
    resolved in the decoded frame store: this holds of the tag that
    [parseTag] returns, and each resolve of one identifier and each
    resolve of all of them that returns keeps it. The resolve that moves
    values into the store under an identifier is the one that deletes the
    identifier from the index: after it the identifier is not pending,
    and no other identifier has changed in the store. A resolve of all
    pending identifiers that returns, in whatever order the [range] takes
    them, leaves nothing pending. *)
Theorem pending_or_resolved_never_both :
  (forall file (t : Tag) e file',
      parseTag file = Some (Some t, e, file') -> pendingOrResolved t)
  /\ (forall (t t' : Tag) id,
         pendingOrResolved t ->
         parseFramesCoordsWithID t id = (None, t') ->
         pendingOrResolved t'
         /\ framesCoords t' !! id = None
         /\ (forall id', frames t' !! id' <> frames t !! id' -> id' = id))
  /\ (forall order (t t' : Tag),
         pendingOrResolved t ->
         parseFramesCoordsInOrder order t = (None, t') ->
         pendingOrResolved t'
         /\ ((forall id, is_Some (framesCoords t !! id) -> id ∈ order) ->
             framesCoords t' = ∅))
  /\ (forall t t' : Tag,
         pendingOrResolved t ->
         parseAllFramesCoords t = (None, t') ->
         pendingOrResolved t' /\ framesCoords t' = ∅).
Proof.
  split; [| split; [| split]].
  - intros [f |] t e file' Hparse; [| discriminate].
    assert (frames t = ∅) as Hempty.
    { unfold parseTag in Hparse.
      destruct (parseHeader f) as [[[h |] | err] f1]; [| | discriminate].
      - destruct (Byte.to_N (Version h) <? 3)%N; [discriminate |].
        destruct (findAllFrames _) as [[e1 t1] |] eqn:Hfind; [| discriminate].
        injection Hparse as <- <- <-.
        unfold findAllFrames in Hfind.
        destruct (findAllFrames_loop_keeps _ _ _ _ _ _ Hfind) as (Hf & _).
        exact Hf.
      - injection Hparse as <- <- <-. reflexivity. }
    intros id _. rewrite Hempty. apply lookup_empty.
  - intros t t' id Hinv Hres.
    split; [eapply resolve_pending_or_resolved; eauto |].
    split.
    + rewrite (resolve_done _ _ _ Hres). apply lookup_delete_eq.
    + intros id' Hchanged.
      destruct (decide (id' = id)) as [-> | Hne]; [reflexivity |].
      destruct (resolve_keeps _ _ _ _ Hres) as (_ & _ & Hframes).
      destruct Hchanged. apply Hframes. exact Hne.
  - intros order t t' Hinv Hrun.
    split; [eapply inOrder_pending_or_resolved; eauto |].
    intros Hall. eapply inOrder_all; eauto.
  - unfold parseAllFramesCoords. intros t t' Hinv Hrun.
    split; [eapply inOrder_pending_or_resolved; eauto |].
    eapply inOrder_all; [exact Hrun |].
    intros id [fcs Hfcs].
    apply elem_of_map_to_list in Hfcs.
    apply (list_elem_of_fmap_2 fst) in Hfcs. exact Hfcs.
Qed.

End Theory.

(** * The claims on the sample files *)

Lemma sampleTagBytes_region :
  frameRegion sampleTagBytes (tagHeaderSize + 54) tagHeaderSize sampleFrames.
Proof.
  region_step {| ID := "TIT2"; FrameSize := 6 |}.
  region_step {| ID := "COMM"; FrameSize := 3 |}.
  region_step {| ID := "COMM"; FrameSize := 3 |}.
  region_step {| ID := "PRIV"; FrameSize := 2 |}.
  apply region_end. unfold tagHeaderSize. lia.
Defined.

(** C1 on the sample tag: four frames, the two comments under one
    identifier in the order of the disk, and ten bytes read at each of the
    four frame headers. *)
Lemma findAllFrames_indexes_frames_witness :
  exists t' : @Tag sampleCodecs,
    findAllFrames (newTag (openFile sampleTagBytes) (tagHeaderSize + 54) x04)
    = Some (None, t')
    /\ framesCoords t' !! "TIT2"%string = Some [{| Len := 6; Pos := 20 |}]
    /\ framesCoords t' !! "COMM"%string
       = Some [{| Len := 3; Pos := 36 |}; {| Len := 3; Pos := 49 |}]
    /\ framesCoords t' !! "APIC"%string = None
    /\ events (file t')
       = [EvSeek 10; EvRead 10 10; EvSeek 26; EvRead 26 10;
          EvSeek 39; EvRead 39 10; EvSeek 52; EvRead 52 10].
Proof.
  destruct (@findAllFrames_indexes_frames sampleCodecs
              (openFile sampleTagBytes) 54 x04 sampleFrames
              ltac:(unfold maxSize; lia) sampleTagBytes_region)
    as (_ & t' & Hfind & Hlookup & Hevents & _).
  exists t'. split; [exact Hfind |].
  rewrite !Hlookup, Hevents. repeat split.
Defined.

(** C2 on the truncated sample: the scan fails at the third frame header,
    of which six bytes are left, and [parseTag] returns the error together
    with the tag, which holds the coordinates collected before. *)
Theorem parseTag_truncated_returns_partial_tag :
  exists (t : @Tag sampleCodecs) f',
    parseTag (Some (openFile truncatedTagBytes))
    = Some (Some t, Some "Size of frame header is less than expected"%string,
            Some f')
    /\ framesCoords t !! "TIT2"%string = Some [{| Len := 6; Pos := 20 |}]
    /\ framesCoords t !! "COMM"%string = Some [{| Len := 3; Pos := 36 |}]
    /\ events f'
       = [EvRead 0 10; EvSeek 10; EvRead 10 10; EvSeek 26; EvRead 26 10;
          EvSeek 39; EvRead 39 6; EvRead 45 0].
Proof.
  eexists. eexists. split; [vm_compute; reflexivity |].
  repeat split.
Qed.

(** C3 as stated fails: a header of major version 5, neither 3 nor 4, is
    accepted, and its frames are scanned. *)
Lemma parseTag_accepts_version_5 :
  exists h f' (t : @Tag sampleCodecs) f'',
    parseHeader (openFile version5TagBytes) = (Ok (Some h), f')
    /\ Version h = x05
    /\ Version h <> x03 /\ Version h <> x04
    /\ parseTag (Some (openFile version5TagBytes))
       = Some (Some t, None, Some f'')
    /\ version t = x05
    /\ framesCoords t !! "TIT2"%string = Some [{| Len := 6; Pos := 20 |}].
Proof.
  eexists. eexists. eexists. eexists.
  split; [vm_compute; reflexivity |].
  split; [reflexivity |].
  split; [discriminate |].
  split; [discriminate |].
  split; [vm_compute; reflexivity |].
  split; reflexivity.
Qed.

(** C3 as amended, on a header of version 2 and on one of version 5. *)
Lemma parseTag_checks_minimum_version_witness :
  (exists f',
      @parseTag sampleCodecs (Some (openFile version2TagBytes))
      = Some (None, Some "Unsupported version of ID3 tag"%string, Some f')
      /\ events f' = [EvRead 0 10])
  /\ (exists e (t' : @Tag sampleCodecs),
         parseTag (Some (openFile version5TagBytes))
         = Some (Some t', e, Some (file t'))
         /\ version t' = x05).
Proof.
  split.
  - eexists.
    refine (proj1 (@parseTag_checks_minimum_version sampleCodecs
                     (openFile version2TagBytes)
                     {| Version := x02; FramesSize := 16 |} _ _ _) _).
    + simpl. lia.
    + vm_compute. reflexivity.
    + vm_compute. reflexivity.
  - destruct (proj2 (@parseTag_checks_minimum_version sampleCodecs
                       (openFile version5TagBytes)
                       {| Version := x05; FramesSize := 16 |} _
                       ltac:(simpl; lia)
                       ltac:(vm_compute; reflexivity))
                ltac:(vm_compute; discriminate))
      as (e & t' & _ & Hparse & Hversion & _).
    exists e, t'. split; [exact Hparse | exact Hversion].
Defined.

(** C5 on a file of two bytes that are not the magic identifier. *)
Lemma parseTag_without_header_witness :
  exists (t : @Tag sampleCodecs) f',
    parseTag (Some (openFile (list_byte_of_string "XY")))
    = Some (Some t, None, Some f')
    /\ framesCoords t = ∅ /\ frames t = ∅.
Proof.
  destruct (@parseTag_without_header sampleCodecs
              (openFile (list_byte_of_string "XY"))
              ltac:(simpl; lia)
              ltac:(vm_compute; discriminate))
    as (t & f' & Hparse & _ & Hcoords & Hframes & _).
  exists t, f'. repeat split; assumption.
Defined.

(** C6 on the sample tag: the comments resolved once, then again. *)
Lemma parseFramesCoordsWithID_idempotent_witness :
  let t' := (parseFramesCoordsWithID sampleTag "COMM").2 in
  parseFramesCoordsWithID sampleTag "COMM" = (None, t')
  /\ framesCoords t' !! "COMM"%string = None
  /\ parseFramesCoordsWithID t' "COMM" = (None, t').
Proof.
  intros t'.
  assert (parseFramesCoordsWithID sampleTag "COMM" = (None, t')) as Hres
    by (vm_compute; reflexivity).
  destruct (@parseFramesCoordsWithID_idempotent sampleCodecs
              sampleTag t' "COMM" Hres) as (Hgone & Hagain & _).
  repeat split; assumption.
Defined.

(** C7 on the sample tag: the frame PRIV has no decoder, the frame COMM
    has the comment decoder. *)
Lemma findParseFunc_dispatch_witness :
  findParseFunc sampleTag "PRIV" = Ok None
  /\ parseFramesCoordsWithID sampleTag "PRIV"
     = (None,
        withFramesCoords sampleTag
          (delete "PRIV"%string (framesCoords sampleTag)))
  /\ findParseFunc sampleTag "COMM"
     = Ok (Some (@parseCommentFrame sampleCodecs))
  /\ findParseFunc sampleTag "TIT2" = Ok (Some (@parseTextFrame sampleCodecs)).
Proof.
  destruct (@findParseFunc_dispatch sampleCodecs sampleTag "P" "RIV")
    as (_ & _ & _ & _ & Hother).
  destruct (Hother ltac:(discriminate) ltac:(by_evaluation))
    as (Hnone & Hresolve & _).
  destruct (@findParseFunc_dispatch sampleCodecs sampleTag "C" "OMM")
    as (_ & _ & _ & Hkinds & _).
  destruct (Hkinds ltac:(discriminate) ltac:(by_evaluation))
    as (_ & Hcomment & _).
  destruct (@findParseFunc_dispatch sampleCodecs sampleTag "T" "IT2")
    as (_ & _ & Htext & _).
  split; [exact Hnone |].
  split.
  { apply (Hresolve [{| Len := 2; Pos := 62 |}]). vm_compute. reflexivity. }
  split; [apply Hcomment; vm_compute; reflexivity |].
  apply Htext. reflexivity.
Defined.

(** C8 on the tag with an empty comment: the first comment is decoded and
    stored, the decoder of the second fails, and the resolve panics
    without a value for it. *)
Lemma readFrame_is_bounded_and_fatal_witness :
  exists t' : @Tag sampleCodecs,
    parseFramesCoordsWithID emptyCommentTag "COMM"
    = (Some "comment frame without encoding"%string, t')
    /\ frames t' !! "COMM"%string = Some [list_byte_of_string "ab"].
Proof.
  destruct (@readFrame_is_bounded_and_fatal sampleCodecs emptyCommentTag
              "COMM" (@parseCommentFrame sampleCodecs)
              [{| Len := 3; Pos := 20 |}] {| Len := 0; Pos := 33 |} []
              [list_byte_of_string "ab"]
              ltac:(vm_compute; reflexivity)
              ltac:(vm_compute; reflexivity)
              ltac:(repeat constructor; simpl; lia)
              ltac:(repeat constructor))
    as (_ & Hfatal).
  destruct (Hfatal "comment frame without encoding"%string
              ltac:(vm_compute; reflexivity))
    as (t' & Hres & Hstore & _).
  exists t'. split; [exact Hres |].
  refine (eq_trans Hstore _). vm_compute. reflexivity.
Defined.

(** C9 on the sample tag: parsed, then all identifiers resolved. *)
Lemma pending_or_resolved_never_both_witness :
  pendingOrResolved parsedSampleTag
  /\ pendingOrResolved (parseAllFramesCoords parsedSampleTag).2
  /\ framesCoords (parseAllFramesCoords parsedSampleTag).2 = ∅.
Proof.
  destruct (@pending_or_resolved_never_both sampleCodecs)
    as (Hparse & _ & _ & Hall).
  assert (pendingOrResolved parsedSampleTag) as Hinv.
  { apply (Hparse (Some (openFile sampleTagBytes)) parsedSampleTag None
             (Some (file parsedSampleTag))).
    vm_compute. reflexivity. }
  split; [exact Hinv |].
  apply (Hall parsedSampleTag _ Hinv). vm_compute. reflexivity.
Defined.

(** C10 on the sample tag: the loop makes its four turns at the four
    frame headers and is left by its test, at or behind the tag end; eight
    turns are enough for it. *)
Lemma findAllFrames_terminates_witness :
  exists (t' : @Tag sampleCodecs) pos',
    findAllFrames (newTag (openFile sampleTagBytes) (tagHeaderSize + 54) x04)
    = Some (None, t')
    /\ scanRun (tagHeaderSize + 54)
         (newTag (openFile sampleTagBytes) (tagHeaderSize + 54) x04)
         tagHeaderSize [10; 26; 39; 52] None t' pos'
    /\ tagHeaderSize + 54 <= pos'
    /\ Sorted (fun p q => p + 10 <= q) [10; 26; 39; 52; pos']
    /\ findAllFrames_loop 8 (tagHeaderSize + 54)
         (newTag (openFile sampleTagBytes) (tagHeaderSize + 54) x04)
         tagHeaderSize = Some (None, t').
Proof.
  destruct (@findAllFrames_terminates sampleCodecs
              (newTag (openFile sampleTagBytes) (tagHeaderSize + 54) x04))
    as ((turns & e & t' & pos' & Hfind & _ & _ & Hnone & Hone & Hfuel) & _).
  destruct (@frameRegion_run sampleCodecs _ _ _ _ sampleTagBytes_region
              ltac:(unfold tagHeaderSize, frameHeaderSize, maxSize, max_int64;
                    lia)
              ltac:(unfold tagHeaderSize; lia)
              (newTag (openFile sampleTagBytes) (tagHeaderSize + 54) x04)
              eq_refl)
    as (t2 & p2 & Hrun2).
  destruct (Hone _ _ _ _ Hrun2) as (<- & <- & <- & <-).
  destruct (Hnone eq_refl) as (Hend & _ & Hsteps).
  exists t2, p2. split; [exact Hfind |]. split; [exact Hrun2 |].
  split; [exact Hend |]. split; [exact Hsteps |].
  apply (Hfuel 8%nat). vm_compute. lia.
Defined.
